(** * Pencalc: the armor-penetration calculator of [pencalc.py]

    A shallow embedding of [ArmorChunk] (its layer list, its [KD_required]
    dictionary and the two passes [armorcalc] and [kdcalc]) over IEEE-754
    binary64 numbers, the numbers the Python program computes with.

    Conventions of the embedding.
    - A number stored in a layer ([hp], [ac]) or passed as [shell_angle] is
      carried as the binary64 value Python uses for it in float arithmetic:
      every arithmetic operation of the two passes has a float operand, so an
      [int] operand is converted first.  The integer statistics of
      [ARMORSTATS] are all exactly representable.
    - The values of [KD_required] are Python integers, hence [Z].
    - [math.cos] calls the C library; the library function is a parameter
      [cos] of the development, and [math_cos] is the error check CPython
      wraps around it.
    - Exceptions are values of [exn]; a method returns an [outcome] that
      carries the state the object is left in.
    - The [while] loop of [kdcalc] takes a bound on its number of iterations
      ([fuel]); a run that needs more yields [OutOfFuel]. *)

From Stdlib Require Import ZArith Floats List Lia Bool Sorted.
From stdpp Require Import base list.
Import ListNotations.

Set Warnings "-inexact-float,-abstract-large-number".
Set Default Proof Using "Type".

Open Scope Z_scope.

(* ================================================================== *)
(** * Exceptions and results *)

Inductive exn : Type :=
| IndexError                  (* list index out of range *)
| ValueError_max_empty        (* max() of an empty sequence *)
| ValueError_math_domain      (* math.cos: the C result is not a number *)
| ValueError_nan_to_int       (* round() of a NaN *)
| OverflowError_inf_to_int    (* round() of an infinity *)
| OverflowError_int_to_float  (* an int too large for a float *)
| ZeroDivisionError.          (* float division by zero *)

(** The result of an expression: a value or a raised exception. *)
Inductive res (A : Type) : Type :=
| Ok (a : A)
| Err (e : exn).
Arguments Ok {A} a.
Arguments Err {A} e.

Definition bind {A B : Type} (m : res A) (k : A -> res B) : res B :=
  match m with
  | Ok a => k a
  | Err e => Err e
  end.

Notation "x <- m ;; k" := (bind m (fun x => k))
  (at level 100, m at next level, right associativity).

(** The result of a statement or method over a state [St]: normal
    completion, an exception (with the state at the time it was raised), or
    an exhausted iteration bound. *)
Inductive outcome (St : Type) : Type :=
| Returns (s : St)
| Raises (e : exn) (s : St)
| OutOfFuel.
Arguments Returns {St} s.
Arguments Raises {St} e s.
Arguments OutOfFuel {St}.

Definition outcome_map {S1 S2 : Type} (f : S1 -> S2) (o : outcome S1) : outcome S2 :=
  match o with
  | Returns s => Returns (f s)
  | Raises e s => Raises e (f s)
  | OutOfFuel => OutOfFuel
  end.

(** [range(0, stop)]: empty when [stop <= 0]. *)
Definition py_range (stop : Z) : list nat := seq 0 (Z.to_nat stop).

(** [for i in idx: s = body(i, s)], stopping at the first exception. *)
Fixpoint for_in {St : Type} (idx : list nat) (body : nat -> St -> res St) (s : St)
  : outcome St :=
  match idx with
  | [] => Returns s
  | i :: idx' =>
      match body i s with
      | Ok s' => for_in idx' body s'
      | Err e => Raises e s
      end
  end.

(* ================================================================== *)
(** * Python's float operations *)

Module PyFloat.

  (** The integer nearest to [m * 2^e], ties to the even one. *)
Definition round_half_even (m e : Z) : Z :=
    if 0 <=? e then m * 2 ^ e
    else
      let d := 2 ^ (- e) in
      let q := m / d in
      let r := m mod d in
      match 2 * r ?= d with
      | Lt => q
      | Gt => q + 1
      | Eq => if Z.even q then q else q + 1
      end.

  (** [round(x)]: the nearest int, ties to even; not defined on NaN and
      the infinities. *)
Definition py_round (x : float) : res Z :=
    match Prim2SF x with
    | S754_nan => Err ValueError_nan_to_int
    | S754_infinity _ => Err OverflowError_inf_to_int
    | S754_zero _ => Ok 0
    | S754_finite s m e => Ok (cond_Zopp s (round_half_even (Zpos m) e))
    end.

  (** [round(x, 1)]: the float nearest to the one-decimal number nearest to
      [x] (ties to the even digit); NaN, infinities and zeros are returned
      as they are. *)
Definition py_round1 (x : float) : float :=
    match Prim2SF x with
    | S754_finite s m e =>
        match round_half_even (10 * Zpos m) e with
        | Zpos k =>
            SF2Prim (SFdiv prec emax (S754_finite s k 0) (S754_finite false 10 0))
        | _ => SF2Prim (S754_zero s)
        end
    | _ => x
    end.

  (** The float nearest to an int (ties to even), as in [float(n)] and in
      mixed int/float arithmetic. *)
Definition int_to_float (z : Z) : res float :=
    match binary_normalize prec emax z 0 false with
    | S754_infinity _ => Err OverflowError_int_to_float
    | f => Ok (SF2Prim f)
    end.

  (** [x / y] on floats. *)
Definition py_div (x y : float) : res float :=
    if (y =? 0)%float then Err ZeroDivisionError else Ok (x / y)%float.

  (** [max(xs)]: keeps the first of the largest items; an item replaces the
      running maximum only when it compares greater. *)
Definition py_max (xs : list float) : res float :=
    match xs with
    | [] => Err ValueError_max_empty
    | x :: rest =>
        Ok (fold_left (fun maxval item => if (maxval <? item)%float then item else maxval)
                      rest x)
    end.

End PyFloat.
Import PyFloat.

(* ================================================================== *)
(** * The data model *)

(** One layer: the dictionary [{'hp': .., 'ac': .., 'is_structural': ..}]. *)
Record Layer : Type := mkLayer {
  hp : float;
  ac : float;
  is_structural : bool
}.

(** [layer['ac'] = v] *)
Definition set_ac (l : Layer) (v : float) : Layer :=
  {| hp := hp l; ac := v; is_structural := is_structural l |}.

(** A [dict] with float keys and int values, in insertion order. *)
Definition dict : Type := list (float * Z).

(** [d[k] = v]: an entry whose key equals [k] keeps its place and its key
    and takes the new value; otherwise the entry is added at the end. *)
Fixpoint dict_set (d : dict) (k : float) (v : Z) : dict :=
  match d with
  | [] => [(k, v)]
  | (k', v') :: d' =>
      if (k' =? k)%float then (k', v) :: d' else (k', v') :: dict_set d' k v
  end.

(** [d.get(k)] *)
Fixpoint dict_get (d : dict) (k : float) : option Z :=
  match d with
  | [] => None
  | (k', v') :: d' => if (k' =? k)%float then Some v' else dict_get d' k
  end.

(** [list(d.keys())] *)
Definition dict_keys (d : dict) : list float := map fst d.

Record ArmorChunk : Type := mkChunk {
  layers : list Layer;
  KD_required : dict
}.

Definition with_layers (c : ArmorChunk) (ls : list Layer) : ArmorChunk :=
  {| layers := ls; KD_required := KD_required c |}.

Definition with_KD (c : ArmorChunk) (d : dict) : ArmorChunk :=
  {| layers := layers c; KD_required := d |}.

(** [ArmorChunk()] *)
Definition new_chunk : ArmorChunk := {| layers := []; KD_required := [] |}.

(** [add_layer(hp, ac, is_structural)] *)
Definition add_layer (c : ArmorChunk) (hp ac : float) (is_structural : bool)
  : ArmorChunk :=
  with_layers c (layers c ++ [mkLayer hp ac is_structural]).

(** ** The material table *)

Inductive material : Type := WOOD | METAL | ALLOY | STONE | LEAD | HA | AIR.

Definition ARMORSTATS (m : material) : Z * Z * bool :=
  match m with
  | WOOD => (864, 8, true)
  | METAL => (1680, 40, true)
  | ALLOY => (1440, 35, true)
  | STONE => (1200, 16, true)
  | LEAD => (1440, 10, true)
  | HA => (6000, 60, true)
  | AIR => (0, 0, false)
  end.

(** The binary64 value of an int field. *)
Definition of_int (z : Z) : float := SF2Prim (binary_normalize prec emax z 0 false).

Definition material_layer (m : material) : Layer :=
  let '(h, a, s) := ARMORSTATS m in mkLayer (of_int h) (of_int a) s.

(** What the driver does for one layer of material [m]. *)
Definition add_material (c : ArmorChunk) (m : material) : ArmorChunk :=
  let '(h, a, s) := ARMORSTATS m in add_layer c (of_int h) (of_int a) s.

(** The chunk the driver builds from a list of materials. *)
Definition chunk_of (ms : list material) : ArmorChunk :=
  fold_left add_material ms new_chunk.

(* ================================================================== *)
(** * [armorcalc] *)

(** The body of the loop of [armorcalc] at index [L]. *)
Definition armorcalc_body (L : nat) (ls : list Layer) : res (list Layer) :=
  match ls !! L with
  | None => Err IndexError
  | Some current_layer =>
      match ls !! (L + 1)%nat with
      | None => Err IndexError
      | Some next_layer =>
          let armor_boost := (ac next_layer * 0.2)%float in
          if is_structural current_layer && is_structural next_layer
          then Ok (<[L := set_ac current_layer (ac current_layer + armor_boost)%float]> ls)
          else Ok ls
      end
  end.

Definition armorcalc (c : ArmorChunk) : outcome ArmorChunk :=
  outcome_map (with_layers c)
    (for_in (py_range (Z.of_nat (length (layers c)) - 1)) armorcalc_body (layers c)).

(* ================================================================== *)
(** * [kdcalc] *)

Section KDCalc.

  (** The C library's [cos]. *)
Variable cos : float -> float.

  (** [math.cos(x)]: the C result, refused when it is a NaN the argument
      was not, or an infinity for a finite argument. *)
Definition math_cos (x : float) : res float :=
    let r := cos x in
    if is_nan r && negb (is_nan x) then Err ValueError_math_domain
    else if is_infinity r && is_finite x then Err ValueError_math_domain
    else Ok r.

  (** The first loop: [layer_ac.append(self.layers[L]['ac'])]. *)
Definition layer_ac_body (ls : list Layer) (L : nat) (layer_ac : list float)
    : res (list float) :=
    match ls !! L with
    | None => Err IndexError
    | Some layer => Ok (layer_ac ++ [ac layer])
    end.

  (** The body of the inner loop at index [L]: the layer's effective hit
      points are added to the running [chunk_effective_hp], which is then
      rounded. *)
Definition layer_hp_body (ls : list Layer) (shell_angle shell_ap : float)
             (L : nat) (chunk_effective_hp : Z) : res Z :=
    match ls !! L with
    | None => Err IndexError
    | Some layer =>
        ac_multiplier <- py_div (ac layer) shell_ap ;;
        c <- math_cos shell_angle ;;
        let angle_multiplier := (1 - c)%float in
        let layer_hp := (hp layer * ac_multiplier * angle_multiplier)%float in
        acc <- int_to_float chunk_effective_hp ;;
        py_round (acc + layer_hp)%float
    end.

  (** The inner loop for one value of [shell_ap]. *)
Definition chunk_effective_hp (ls : list Layer) (shell_angle shell_ap : float)
    : outcome Z :=
    for_in (py_range (Z.of_nat (length ls) - 1))
           (layer_hp_body ls shell_angle shell_ap) 0.

  (** [shell_ap += 0.1; shell_ap = round(shell_ap, 1)] *)
Definition next_ap (shell_ap : float) : float := py_round1 (shell_ap + 0.1)%float.

  (** The [while shell_ap <= max_ap] loop; [fuel] bounds the number of
      times its body runs. *)
Fixpoint kdcalc_while (fuel : nat) (ls : list Layer)
           (max_ap shell_angle shell_ap : float) (KD : dict) {struct fuel}
    : outcome dict :=
    if (shell_ap <=? max_ap)%float then
      match fuel with
      | O => OutOfFuel
      | S fuel' =>
          match chunk_effective_hp ls shell_angle shell_ap with
          | Returns v =>
              kdcalc_while fuel' ls max_ap shell_angle (next_ap shell_ap)
                           (dict_set KD shell_ap v)
          | Raises e _ => Raises e KD
          | OutOfFuel => OutOfFuel
          end
      end
    else Returns KD.

Definition kdcalc (fuel : nat) (c : ArmorChunk) (shell_angle : float)
    : outcome ArmorChunk :=
    match for_in (py_range (Z.of_nat (length (layers c)) - 1))
                 (layer_ac_body (layers c)) [] with
    | Returns layer_ac =>
        match py_max layer_ac with
        | Err e => Raises e c
        | Ok max_ap =>
            outcome_map (with_KD c)
              (kdcalc_while fuel (layers c) max_ap shell_angle 0.1%float (KD_required c))
        end
    | Raises e _ => Raises e c
    | OutOfFuel => OutOfFuel
    end.

End KDCalc.

(* ================================================================== *)
(** * Reference definitions

    What the two passes are meant to compute, written over the list of
    layers rather than over indices; the theorems relate the passes to
    them. *)

(** All layers except the last. *)
Definition non_last (ls : list Layer) : list Layer := removelast ls.

(** The layering bonus of [current] from its successor [next]. *)
Definition boost (current next : Layer) : Layer :=
  if is_structural current && is_structural next
  then set_ac current (ac current + ac next * 0.2)%float
  else current.

(** Every layer boosted from the base [ac] of its successor. *)
Fixpoint effective_ac (ls : list Layer) : list Layer :=
  match ls with
  | [] => []
  | current :: rest =>
      match rest with
      | [] => [current]
      | next :: _ => boost current next :: effective_ac rest
      end
  end.

(** A left fold whose step may raise. *)
Fixpoint fold_res {A B : Type} (f : A -> B -> res A) (l : list B) (a : A) : res A :=
  match l with
  | [] => Ok a
  | x :: l' => a' <- f a x ;; fold_res f l' a'
  end.

Section Reference.

Variable cos : float -> float.

  (** One layer's contribution at [shell_ap]. *)
Definition layer_hp (shell_angle shell_ap : float) (l : Layer) : res float :=
    ac_multiplier <- py_div (ac l) shell_ap ;;
    c <- math_cos cos shell_angle ;;
    Ok (hp l * ac_multiplier * (1 - c))%float.

  (** [round(previous_rounded_sum + this_layer_contribution)] *)
Definition add_and_round (shell_angle shell_ap : float)
             (previous_rounded_sum : Z) (l : Layer) : res Z :=
    this_layer_contribution <- layer_hp shell_angle shell_ap l ;;
    previous <- int_to_float previous_rounded_sum ;;
    py_round (previous + this_layer_contribution)%float.

  (** The fold over the layers except the last, rounding after each. *)
Definition rounded_hp (ls : list Layer) (shell_angle shell_ap : float) : res Z :=
    fold_res (add_and_round shell_angle shell_ap) (non_last ls) 0.

  (** The contributions added up as floats and rounded once at the end. *)
Definition add_only (shell_angle shell_ap : float) (sum : float) (l : Layer)
    : res float :=
    this_layer_contribution <- layer_hp shell_angle shell_ap l ;;
    Ok (sum + this_layer_contribution)%float.

Definition hp_rounded_once (ls : list Layer) (shell_angle shell_ap : float) : res Z :=
    s <- fold_res (add_only shell_angle shell_ap) (non_last ls) 0%float ;;
    py_round s.

(** The runs of the [while] loop from [shell_ap]: the entries it writes, in
order, and how it ends ([None]: the guard fails; [Some e]: the inner loop
raises [e]). *)
Inductive ap_run (ls : list Layer) (max_ap shell_angle : float)
  : float -> list (float * Z) -> option exn -> Prop :=
| ap_run_stop (shell_ap : float) :
    (shell_ap <=? max_ap)%float = false ->
    ap_run ls max_ap shell_angle shell_ap [] None
| ap_run_raise (shell_ap : float) (e : exn) :
    (shell_ap <=? max_ap)%float = true ->
    rounded_hp ls shell_angle shell_ap = Err e ->
    ap_run ls max_ap shell_angle shell_ap [] (Some e)
| ap_run_step (shell_ap : float) (v : Z) (ws : list (float * Z)) (fin : option exn) :
    (shell_ap <=? max_ap)%float = true ->
    rounded_hp ls shell_angle shell_ap = Ok v ->
    ap_run ls max_ap shell_angle (next_ap shell_ap) ws fin ->
    ap_run ls max_ap shell_angle shell_ap ((shell_ap, v) :: ws) fin.

End Reference.

(** [for k, v in ws: d[k] = v] *)
Definition dict_update (d : dict) (ws : list (float * Z)) : dict :=
  fold_left (fun d kv => dict_set d (fst kv) (snd kv)) ws d.

(** The writes of a run: keys that are neither NaN nor zero, each with the
    one value its key determines. *)
Definition functional_writes (ws : list (float * Z)) : Prop :=
  Forall (fun kv => (fst kv =? fst kv)%float = true /\ (fst kv =? 0)%float = false) ws
  /\ forall kv kv', In kv ws -> In kv' ws -> fst kv = fst kv' -> snd kv = snd kv'.

(** The value of [shell_ap] after [j] runs of the loop body. *)
Definition ap_iter (j : nat) : float := Nat.iter j next_ap 0.1%float.

(** The float nearest to the decimal [k / 10]. *)
Definition ap_value (k : nat) : float := (of_int (Z.of_nat k) / 10)%float.

(** The largest [max_ap] for which the values of [shell_ap] are tabulated
    below, and the number of values that takes (from 0 to 1000.0
    included). *)
Definition max_ap_bound : float := 1000%float.
Definition ap_last : nat := Z.to_nat 10000.
Definition ap_table_size : nat := S ap_last.

(** [ap_value k] steps to [ap_value (k + 1)], which is larger and not 0. *)
Definition ap_step_ok (k : nat) : bool :=
  (next_ap (ap_value k) =? ap_value (S k))%float
  && (ap_value k <? ap_value (S k))%float
  && negb (ap_value (S k) =? 0)%float.

(** [ap_step_ok] for the [n] numbers from [z] on, with a binary counter
    and each value computed once; [shell_ap] is the float nearest to
    [z / 10]. *)
Fixpoint ap_steps_ok (n : nat) (z : Z) (shell_ap : float) : bool :=
  match n with
  | O => true
  | S n' =>
      let next := (of_int (z + 1) / 10)%float in
      (next_ap shell_ap =? next)%float
      && (shell_ap <? next)%float
      && negb (next =? 0)%float
      && ap_steps_ok n' (z + 1) next
  end.

(** Python's [!=] on floats. *)
Definition py_ne (x y : float) : bool := negb (x =? y)%float.

(** ** A cosine to run the examples with

    The Taylor series of [cos] at the exact value of [x], evaluated by
    Horner's rule in fixed-point arithmetic with 512 fractional bits and
    rounded once to binary64.  The number of terms grows with [x], up to
    400; for arguments up to 100 the accumulated error stays below
    2^-300, far under the last bit of the result. *)
Definition cos_frac_bits : Z := 512.

Fixpoint cos_horner (x2 : Z) (k : nat) (terms : nat) : Z :=
  match terms with
  | O => Z.shiftl 1 cos_frac_bits
  | S terms' =>
      let v := cos_horner x2 (S k) terms' in
      Z.shiftl 1 cos_frac_bits
      - Z.shiftr (x2 * v) cos_frac_bits / ((2 * Z.of_nat k + 1) * (2 * Z.of_nat k + 2))
  end.

Definition cos_series (x : float) : float :=
  match Prim2SF x with
  | S754_zero _ => 1%float
  | S754_finite _ m e =>
      (* x^2 in fixed point *)
      let x2 := Z.shiftl (Zpos m * Zpos m) (2 * e + cos_frac_bits) in
      let terms := Z.to_nat (Z.min 400 (30 + Z.shiftr x2 (cos_frac_bits + 5))) in
      SF2Prim (binary_normalize prec emax (cos_horner x2 0 terms) (- cos_frac_bits) false)
  | _ => nan
  end.

(** ** Chunks used in the examples *)

(** A large [ac] over a small one: the boost is below half the spacing of
    the floats around 2^54. *)
Definition absorbing_chunk : ArmorChunk :=
  add_layer (add_layer new_chunk 0 18014398509481984 true) 0 1 true.

(** Hit points and armor class of 2^600: their product is not a finite
    float. *)
Definition overflow_chunk : ArmorChunk :=
  add_layer (add_layer new_chunk 0x1p600 0x1p600 true) 0 0 false.

(** A layer of [ac] 0.25 before a layer of air. *)
Definition quarter_chunk : ArmorChunk :=
  add_layer (add_layer new_chunk 1 0.25 true) 0 0 false.

(** Three layers of [ac] 0.5 and a last layer. *)
Definition half_chunk : ArmorChunk :=
  add_layer (add_layer (add_layer (add_layer new_chunk 1 0.5 true) 1 0.5 true)
                       1 0.5 true) 0 0 false.

(** The chunk a call leaves behind. *)
Definition chunk_after (o : outcome ArmorChunk) : ArmorChunk :=
  match o with
  | Returns c | Raises _ c => c
  | OutOfFuel => new_chunk
  end.

(** [half_chunk] after [kdcalc(1)] and [quarter_chunk] after [kdcalc(0)]. *)
Definition half_chunk_solved : ArmorChunk :=
  Eval vm_compute in chunk_after (kdcalc cos_series 10 half_chunk 1).

Definition quarter_chunk_solved : ArmorChunk :=
  Eval vm_compute in chunk_after (kdcalc cos_series 10 quarter_chunk 0).

(** A cosine that is right at 1 only. *)
Definition cos_at_1 (x : float) : float :=
  if (x =? 1)%float then cos_series 1 else 0%float.

(** A layer of 100 hit points and [ac] 0.1 before a layer of air, and the
    chunk [kdcalc(90)] leaves. *)
Definition steep_chunk : ArmorChunk :=
  add_layer (add_layer new_chunk 100 0.1 true) 0 0 false.

Definition steep_chunk_solved : ArmorChunk :=
  Eval vm_compute in chunk_after (kdcalc cos_series 10 steep_chunk 90).

(** A cosine that is right at 90 only. *)
Definition cos_at_90 (x : float) : float :=
  if (x =? 90)%float then cos_series 90 else 1%float.



(* ================================================================== *)
(** * An order on binary64 values

    [SFcompare] orders the floats that are not NaN as the lexicographic
    order of a triple of integers: sign class, exponent, mantissa. *)

Module FloatOrder.

Definition key (x : spec_float) : option (Z * Z * Z) :=
    match x with
    | S754_nan => None
    | S754_infinity true => Some (-2, 0, 0)
    | S754_infinity false => Some (2, 0, 0)
    | S754_zero _ => Some (0, 0, 0)
    | S754_finite false m e => Some (1, e, Zpos m)
    | S754_finite true m e => Some (-1, - e, Zneg m)
    end.

Definition lex3 (a b : Z * Z * Z) : comparison :=
    let '(a1, a2, a3) := a in
    let '(b1, b2, b3) := b in
    match a1 ?= b1 with
    | Eq => match a2 ?= b2 with
            | Eq => a3 ?= b3
            | c => c
            end
    | c => c
    end.

Definition lex_lt (a b : Z * Z * Z) : Prop :=
    let '(a1, a2, a3) := a in
    let '(b1, b2, b3) := b in
    a1 < b1 \/ (a1 = b1 /\ (a2 < b2 \/ (a2 = b2 /\ a3 < b3))).

Definition fkey (x : float) : option (Z * Z * Z) := key (Prim2SF x).

End FloatOrder.

(* ================================================================== *)
(** * [print_chunk] and the last statements of the driver *)

(** What [print_chunk] prints: the arguments of its [print] calls, one
    pair per line, and whether it ended normally or on the [KeyError] of
    a lookup [self.KD_required[ap]] that found no entry. *)
Inductive printed : Type :=
| Printed (lines : list (float * Z))
| KeyError (lines : list (float * Z)) (ap : float).

(** [for ap in keys: print(ap, d[ap])] *)
Fixpoint print_lines (d : dict) (keys : list float) (lines : list (float * Z))
  : printed :=
  match keys with
  | [] => Printed lines
  | ap :: keys' =>
      match dict_get d ap with
      | Some v => print_lines d keys' (lines ++ [(ap, v)])
      | None => KeyError lines ap
      end
  end.

Definition print_chunk (c : ArmorChunk) : printed :=
  print_lines (KD_required c) (dict_keys (KD_required c)) [].

(** The state of a Python [dict] with float keys: no key is a NaN and no
    two keys are equal. *)
Definition dict_wf (d : dict) : Prop :=
  Forall (fun k => (k =? k)%float = true) (dict_keys d)
  /\ StronglySorted (fun a b => (a =? b)%float = false) (dict_keys d).

(** The last three statements of the driver, on the chunk it has built:
    [armorcalc()], [kdcalc(shell_angle)], [print_chunk()]. *)
Inductive run_result : Type :=
| Ran (c : ArmorChunk) (out : printed)
| Crashed (e : exn) (c : ArmorChunk)
| Unfinished.

Definition run_chunk (cos : float -> float) (fuel : nat) (c : ArmorChunk)
           (shell_angle : float) : run_result :=
  match armorcalc c with
  | Returns c1 =>
      match kdcalc cos fuel c1 shell_angle with
      | Returns c2 => Ran c2 (print_chunk c2)
      | Raises e c2 => Crashed e c2
      | OutOfFuel => Unfinished
      end
  | Raises e c1 => Crashed e c1
  | OutOfFuel => Unfinished
  end.

(** The layers [armorcalc] can leave on a chunk built from the material
    table: a material's layer, as it is or boosted by a successor. *)
Definition material_layers : list Layer :=
  flat_map (fun m => material_layer m
                     :: map (fun m' => boost (material_layer m) (material_layer m'))
                            [WOOD; METAL; ALLOY; STONE; LEAD; HA; AIR])
           [WOOD; METAL; ALLOY; STONE; LEAD; HA; AIR].

(** A float that is neither a NaN nor an infinity. *)
Definition finite (x : float) : bool :=
  match Prim2SF x with
  | S754_zero _ | S754_finite _ _ _ => true
  | _ => false
  end.

(** [material_layers], evaluated. *)
Definition material_layers_value : list Layer := Eval vm_compute in material_layers.

(** The largest [ac] among [material_layers], and the number of values of
    [shell_ap] up to it. *)
Definition material_ac_bound : float := 72%float.
Definition material_ap_last : nat := 720.

(** At the value [(k + 1) / 10] of [shell_ap], for every layer of
    [material_layers], the hit points scaled by [ac / shell_ap] are finite
    and the [ac] is within [material_ac_bound]. *)
Definition material_step_ok (k : nat) : bool :=
  let shell_ap := ap_value (S k) in
  forallb (fun l => finite (hp l * (ac l / shell_ap))%float
                    && (ac l <=? material_ac_bound)%float)
          material_layers_value.

(* ================================================================== *)
(** * Facts about the order on binary64 values *)

Module FloatOrderFacts.
Import FloatOrder.

Lemma lex3_Lt a b : lex3 a b = Lt <-> lex_lt a b.
Proof.
    destruct a as [[a1 a2] a3], b as [[b1 b2] b3]; simpl.
    destruct (Z.compare_spec a1 b1), (Z.compare_spec a2 b2), (Z.compare_spec a3 b3);
      split; intros; try discriminate; try reflexivity; lia.
Qed.

Lemma lex3_Eq a b : lex3 a b = Eq <-> a = b.
Proof.
    destruct a as [[a1 a2] a3], b as [[b1 b2] b3]; simpl.
    destruct (Z.compare_spec a1 b1), (Z.compare_spec a2 b2), (Z.compare_spec a3 b3);
      split; intros H'; try discriminate; try reflexivity;
      try (injection H'; intros; lia); subst; reflexivity.
Qed.

Lemma lex3_Gt a b : lex3 a b = Gt <-> lex_lt b a.
Proof.
    destruct a as [[a1 a2] a3], b as [[b1 b2] b3]; simpl.
    destruct (Z.compare_spec a1 b1), (Z.compare_spec a2 b2), (Z.compare_spec a3 b3);
      split; intros; try discriminate; try reflexivity; lia.
Qed.

Lemma SFcompare_key x y :
    SFcompare x y =
    match key x, key y with
    | Some a, Some b => Some (lex3 a b)
    | _, _ => None
    end.
Proof.
    destruct x as [sx|sx| |sx mx ex], y as [sy|sy| |sy my ey];
      try destruct sx; try destruct sy; simpl; try reflexivity.
    rewrite Z.compare_opp, (Z.compare_antisym ex ey).
    destruct (ex ?= ey); reflexivity.
Qed.

Lemma ltb_key x y :
    (x <? y)%float = true <->
    exists a b, fkey x = Some a /\ fkey y = Some b /\ lex_lt a b.
Proof.
    rewrite FloatAxioms.ltb_spec. unfold SFltb, fkey. rewrite SFcompare_key.
    destruct (key (Prim2SF x)) as [a|], (key (Prim2SF y)) as [b|];
      try (split; [discriminate | intros (? & ? & ? & ? & ?); discriminate]).
    split.
    - destruct (lex3 a b) eqn:E; try discriminate. intros _.
      exists a, b. rewrite <- lex3_Lt. auto.
    - intros (a' & b' & Ha & Hb & H). injection Ha as ->. injection Hb as ->.
      apply lex3_Lt in H. now rewrite H.
Qed.

Lemma eqb_key x y :
    (x =? y)%float = true <-> exists a, fkey x = Some a /\ fkey y = Some a.
Proof.
    rewrite FloatAxioms.eqb_spec. unfold SFeqb, fkey. rewrite SFcompare_key.
    destruct (key (Prim2SF x)) as [a|], (key (Prim2SF y)) as [b|];
      try (split; [discriminate | intros (? & ? & ?); discriminate]).
    split.
    - destruct (lex3 a b) eqn:E; try discriminate. intros _.
      apply lex3_Eq in E. subst. eauto.
    - intros (a' & Ha & Hb). injection Ha as ->. injection Hb as ->.
      assert (E : lex3 a' a' = Eq) by now apply lex3_Eq. now rewrite E.
Qed.

Lemma leb_key x y :
    (x <=? y)%float = true <->
    exists a b, fkey x = Some a /\ fkey y = Some b /\ ~ lex_lt b a.
Proof.
    rewrite FloatAxioms.leb_spec. unfold SFleb, fkey. rewrite SFcompare_key.
    destruct (key (Prim2SF x)) as [a|], (key (Prim2SF y)) as [b|];
      try (split; [discriminate | intros (? & ? & ? & ? & ?); discriminate]).
    split.
    - destruct (lex3 a b) eqn:E; try discriminate; intros _;
        exists a, b; rewrite <- lex3_Gt, E; repeat split; discriminate.
    - intros (a' & b' & Ha & Hb & H). injection Ha as ->. injection Hb as ->.
      rewrite <- lex3_Gt in H.
      destruct (lex3 a' b'); try reflexivity. now destruct H.
Qed.

Lemma lex_lt_trans a b c : lex_lt a b -> lex_lt b c -> lex_lt a c.
Proof.
    destruct a as [[a1 a2] a3], b as [[b1 b2] b3], c as [[c1 c2] c3]; simpl; lia.
Qed.

Lemma lex_lt_irrefl a : ~ lex_lt a a.
Proof. destruct a as [[a1 a2] a3]; simpl; lia. Qed.

Lemma lex_total a b : lex_lt a b \/ a = b \/ lex_lt b a.
Proof.
    destruct a as [[a1 a2] a3], b as [[b1 b2] b3]; simpl.
    destruct (Z.lt_total a1 b1) as [?|[?|?]], (Z.lt_total a2 b2) as [?|[?|?]],
      (Z.lt_total a3 b3) as [?|[?|?]]; subst; auto; try (left; lia); try (right; right; lia).
Qed.

Lemma ltb_trans x y z :
    (x <? y)%float = true -> (y <? z)%float = true -> (x <? z)%float = true.
Proof.
    rewrite !ltb_key. intros (a & b & Ha & Hb & Hab) (b' & c & Hb' & Hc & Hbc).
    rewrite Hb in Hb'. injection Hb' as <-.
    exists a, c. eauto using lex_lt_trans.
Qed.

Lemma leb_trans x y z :
    (x <=? y)%float = true -> (y <=? z)%float = true -> (x <=? z)%float = true.
Proof.
    rewrite !leb_key. intros (a & b & Ha & Hb & Hab) (b' & c & Hb' & Hc & Hbc).
    rewrite Hb in Hb'. injection Hb' as <-.
    exists a, c. repeat split; auto. intros Hca.
    destruct (lex_total a b) as [H|[->|H]]; eauto using lex_lt_trans.
Qed.

Lemma ltb_not_leb x y : (x <? y)%float = true -> (y <=? x)%float = false.
Proof.
    intros H. destruct (y <=? x)%float eqn:E; [|reflexivity].
    apply ltb_key in H as (a & b & Ha & Hb & Hab).
    apply leb_key in E as (b' & a' & Hb' & Ha' & Hn).
    rewrite Hb in Hb'. rewrite Ha in Ha'. injection Hb' as <-. injection Ha' as <-.
    contradiction.
Qed.

Lemma ltb_not_eqb x y : (x <? y)%float = true -> (x =? y)%float = false.
Proof.
    intros H. destruct (x =? y)%float eqn:E; [|reflexivity].
    apply ltb_key in H as (a & b & Ha & Hb & Hab).
    apply eqb_key in E as (a' & Ha' & Hb').
    rewrite Ha in Ha'. rewrite Hb in Hb'. injection Ha' as <-. injection Hb' as <-.
    now apply lex_lt_irrefl in Hab.
Qed.

Lemma ltb_irrefl x : (x <? x)%float = false.
Proof.
    destruct (x <? x)%float eqn:E; [|reflexivity].
    apply ltb_key in E as (a & b & Ha & Hb & Hab).
    rewrite Ha in Hb. injection Hb as <-. now apply lex_lt_irrefl in Hab.
Qed.

  (** A float that compares below or equal to another is not a NaN. *)
Lemma leb_eqb_refl x y : (x <=? y)%float = true -> (x =? x)%float = true.
Proof.
    intros (a & b & Ha & _)%leb_key. apply eqb_key. eauto.
Qed.

  (** [max]'s update rule on three floats. *)
Lemma ltb_false_step m x y :
    (m <? x)%float = false -> (m <? y)%float = true -> (y <? x)%float = false.
Proof.
    intros Hmx Hmy. destruct (y <? x)%float eqn:E; [|reflexivity].
    now rewrite (ltb_trans _ _ _ Hmy E) in Hmx.
Qed.

Lemma key_inj x y a : key x = Some a -> key y = Some a -> a <> (0, 0, 0) -> x = y.
Proof.
    destruct x as [sx|sx| |sx mx ex], y as [sy|sy| |sy my ey];
      try destruct sx; try destruct sy; simpl; intros Hx Hy Hn;
      try discriminate; try congruence.
    - injection Hx as <-. injection Hy as E1 E2. f_equal; lia.
Qed.

  (** Equal floats are the same float, the two zeros apart. *)
Lemma eqb_eq x y : (x =? y)%float = true -> (y =? 0)%float = false -> x = y.
Proof.
    intros (a & Hx & Hy)%eqb_key Hz. apply Prim2SF_inj.
    apply (key_inj _ _ a Hx Hy). intros ->.
    assert (H0 : (y =? 0)%float = true) by (apply eqb_key; exists (0, 0, 0); split; [exact Hy | reflexivity]).
    congruence.
Qed.

End FloatOrderFacts.

(* ================================================================== *)
(** * Loops over indices and folds over lists *)

Lemma py_range_pred_length (n : nat) : py_range (Z.of_nat n - 1) = seq 0 (n - 1).
Proof. unfold py_range. f_equal. lia. Qed.

Lemma py_range_short (n : nat) : (n <= 1)%nat -> py_range (Z.of_nat n - 1) = [].
Proof. intros H. rewrite py_range_pred_length. now replace (n - 1)%nat with 0%nat by lia. Qed.

Lemma non_last_take (ls : list Layer) : non_last ls = take (length ls - 1) ls.
Proof.
  unfold non_last. rewrite removelast_firstn_len. f_equal. lia.
Qed.

Lemma non_last_length (ls : list Layer) : length (non_last ls) = (length ls - 1)%nat.
Proof. rewrite non_last_take, length_take. lia. Qed.

Lemma non_last_lookup (ls : list Layer) (i : nat) :
  (i < length ls - 1)%nat -> non_last ls !! i = ls !! i.
Proof. intros H. rewrite non_last_take. now apply lookup_take_lt. Qed.

(** A loop over the indices [k .. k+m-1] of a list, whose body reads the
    element at its index, is the fold over that slice of the list. *)
Lemma for_in_fold_res {A St : Type} (ls : list A) (f : St -> A -> res St)
      (body : nat -> St -> res St) :
  (forall L s, body L s = match ls !! L with
                          | None => Err IndexError
                          | Some x => f s x
                          end) ->
  forall (m k : nat) (s : St), (k + m <= length ls)%nat ->
    match for_in (seq k m) body s with
    | Returns v => fold_res f (take m (drop k ls)) s = Ok v
    | Raises e _ => fold_res f (take m (drop k ls)) s = Err e
    | OutOfFuel => False
    end.
Proof.
  intros Hbody m. induction m as [|m IH]; intros k s Hk; simpl.
  - reflexivity.
  - rewrite Hbody.
    destruct (ls !! k) as [x|] eqn:Hx.
    2:{ apply lookup_ge_None in Hx. lia. }
    rewrite (drop_S _ _ _ Hx). simpl.
    destruct (f s x) as [s'|e]; simpl.
    + apply IH. lia.
    + reflexivity.
Qed.

Lemma fold_res_ext {A B : Type} (f g : A -> B -> res A) (l : list B) (a : A) :
  (forall a x, f a x = g a x) -> fold_res f l a = fold_res g l a.
Proof.
  intros H. revert a. induction l as [|x l IH]; intros a; simpl; [reflexivity|].
  rewrite H. destruct (g a x); simpl; auto.
Qed.

Lemma for_in_ext {St : Type} (idx : list nat) (f g : nat -> St -> res St) (s : St) :
  (forall i s, f i s = g i s) -> for_in idx f s = for_in idx g s.
Proof.
  intros H. revert s. induction idx as [|i idx IH]; intros s; simpl; [reflexivity|].
  rewrite H. destruct (g i s); auto.
Qed.

(* ================================================================== *)
(** * [armorcalc] computes the effective armor class *)

Lemma with_layers_id (c : ArmorChunk) : with_layers c (layers c) = c.
Proof. now destruct c. Qed.

Lemma with_KD_id (c : ArmorChunk) : with_KD c (KD_required c) = c.
Proof. now destruct c. Qed.

(** The loop, started at index [length pre] with the layers before it
    already boosted. *)
Lemma armorcalc_loop (tl pre : list Layer) :
  for_in (seq (length pre) (length tl - 1)) armorcalc_body (pre ++ tl)
  = Returns (pre ++ effective_ac tl).
Proof.
  revert pre. induction tl as [|current rest IH]; intros pre.
  - reflexivity.
  - destruct rest as [|next rest'].
    + reflexivity.
    + replace (length (current :: next :: rest') - 1)%nat
        with (S (length (next :: rest') - 1)) by (simpl; lia).
      cbn [seq for_in]. unfold armorcalc_body at 1.
      rewrite lookup_app_r by lia. rewrite Nat.sub_diag. cbn [lookup list_lookup].
      rewrite lookup_app_r by lia.
      replace (length pre + 1 - length pre)%nat with 1%nat by lia. cbn [lookup list_lookup].
      assert (Hnext : forall l : Layer,
                 for_in (seq (S (length pre)) (length (next :: rest') - 1)) armorcalc_body
                        (pre ++ l :: next :: rest')
                 = Returns (pre ++ l :: effective_ac (next :: rest'))).
      { intros l. specialize (IH (pre ++ [l])).
        rewrite length_app in IH. simpl in IH.
        replace (length pre + 1)%nat with (S (length pre)) in IH by lia.
        rewrite <- !app_assoc in IH. exact IH. }
      change (effective_ac (current :: next :: rest'))
        with (boost current next :: effective_ac (next :: rest')).
      unfold boost.
      destruct (is_structural current && is_structural next).
      * rewrite insert_app_r_alt by lia. rewrite Nat.sub_diag. cbn [insert list_insert].
        apply Hnext.
      * apply Hnext.
Qed.

(** [armorcalc] never raises, and leaves the layers boosted. *)
Lemma armorcalc_returns (c : ArmorChunk) :
  armorcalc c = Returns (with_layers c (effective_ac (layers c))).
Proof.
  unfold armorcalc. rewrite py_range_pred_length.
  pose proof (armorcalc_loop (layers c) []) as H. simpl in H.
  now rewrite H.
Qed.

Lemma effective_ac_length (ls : list Layer) : length (effective_ac ls) = length ls.
Proof.
  induction ls as [|current rest IH]; [reflexivity|].
  destruct rest as [|next rest']; [reflexivity|].
  change (effective_ac (current :: next :: rest'))
    with (boost current next :: effective_ac (next :: rest')).
  simpl length in *. now rewrite IH.
Qed.

Lemma effective_ac_lookup (ls : list Layer) (i : nat) :
  effective_ac ls !! i =
  match ls !! i with
  | None => None
  | Some current =>
      Some (match ls !! S i with
            | Some next => boost current next
            | None => current
            end)
  end.
Proof.
  revert i. induction ls as [|current rest IH]; intros i; [reflexivity|].
  destruct rest as [|next rest'].
  - destruct i as [|i]; [reflexivity|]. now destruct i.
  - change (effective_ac (current :: next :: rest'))
      with (boost current next :: effective_ac (next :: rest')).
    destruct i as [|i]; [reflexivity|].
    cbn [lookup list_lookup]. apply IH.
Qed.

Lemma boost_hp (current next : Layer) : hp (boost current next) = hp current.
Proof. unfold boost. now destruct (_ && _). Qed.

Lemma boost_is_structural (current next : Layer) :
  is_structural (boost current next) = is_structural current.
Proof. unfold boost. now destruct (_ && _). Qed.

Lemma boost_ac (current next : Layer) :
  ac (boost current next)
  = (if is_structural current && is_structural next
     then ac current + ac next * 0.2 else ac current)%float.
Proof. unfold boost. now destruct (_ && _). Qed.

Lemma effective_ac_hp (ls : list Layer) : map hp (effective_ac ls) = map hp ls.
Proof.
  induction ls as [|current rest IH]; [reflexivity|].
  destruct rest as [|next rest']; [reflexivity|].
  change (effective_ac (current :: next :: rest'))
    with (boost current next :: effective_ac (next :: rest')).
  cbn [map]. rewrite boost_hp. f_equal. exact IH.
Qed.

Lemma effective_ac_is_structural (ls : list Layer) :
  map is_structural (effective_ac ls) = map is_structural ls.
Proof.
  induction ls as [|current rest IH]; [reflexivity|].
  destruct rest as [|next rest']; [reflexivity|].
  change (effective_ac (current :: next :: rest'))
    with (boost current next :: effective_ac (next :: rest')).
  cbn [map]. rewrite boost_is_structural. f_equal. exact IH.
Qed.

Lemma effective_ac_last (ls : list Layer) : last (effective_ac ls) = last ls.
Proof.
  induction ls as [|current rest IH]; [reflexivity|].
  destruct rest as [|next rest']; [reflexivity|].
  change (effective_ac (current :: next :: rest'))
    with (boost current next :: effective_ac (next :: rest')).
  rewrite (last_cons_cons current). rewrite <- IH.
  destruct (effective_ac (next :: rest')) as [|x xs] eqn:E.
  - apply (f_equal length) in E. rewrite effective_ac_length in E. discriminate.
  - apply last_cons_cons.
Qed.

(** Float multiplication commutes. *)
Lemma float_mul_comm (x y : float) : (x * y = y * x)%float.
Proof.
  apply Prim2SF_inj. rewrite !mul_spec. unfold SF64mul.
  destruct (Prim2SF x) as [sx|sx| |sx mx ex], (Prim2SF y) as [sy|sy| |sy my ey];
    simpl; try reflexivity; try (now rewrite xorb_comm).
  now rewrite xorb_comm, Pos.mul_comm, Z.add_comm.
Qed.

(* ================================================================== *)
(** * Dictionaries *)

Lemma dict_get_set_same (d : dict) (k : float) (v : Z) :
  (k =? k)%float = true -> dict_get (dict_set d k v) k = Some v.
Proof.
  intros Hk. induction d as [|[k' v'] d IH]; simpl.
  - now rewrite Hk.
  - destruct (k' =? k)%float eqn:E; simpl; rewrite E; auto.
Qed.

Lemma dict_set_fixed_get (d : dict) (k : float) (v : Z) :
  dict_set d k v = d -> dict_get d k = Some v.
Proof.
  induction d as [|[k' v'] d IH]; simpl; [discriminate|].
  destruct (k' =? k)%float; intros H; injection H; auto.
  now intros ->.
Qed.

(** Writing twice is writing once. *)
Lemma dict_set_set (d : dict) (k : float) (v : Z) :
  (k =? k)%float = true -> dict_set (dict_set d k v) k v = dict_set d k v.
Proof.
  intros Hk. induction d as [|[k' v'] d IH]; simpl.
  - now rewrite Hk.
  - destruct (k' =? k)%float eqn:E; simpl; rewrite E; [reflexivity|]. now rewrite IH.
Qed.

(** An entry stays in place under a write, when the two writes agree on
    any stored key that equals both of their keys. *)
Lemma dict_set_fixed_preserved (d : dict) (k k' : float) (v v' : Z) :
  (forall x, (x =? k)%float = true -> (x =? k')%float = true -> v' = v) ->
  dict_set d k v = d ->
  dict_set (dict_set d k' v') k v = dict_set d k' v'.
Proof.
  intros Hc. induction d as [|[k0 v0] d IH]; simpl; [discriminate|].
  destruct (k0 =? k)%float eqn:E, (k0 =? k')%float eqn:E'; simpl; rewrite E; intros H.
  - now rewrite (Hc k0 E E').
  - injection H as ->. reflexivity.
  - injection H as H. now rewrite H.
  - injection H as H. now rewrite IH.
Qed.

Lemma dict_set_keys_fresh (d : dict) (k : float) (v : Z) :
  Forall (fun k' => (k' =? k)%float = false) (dict_keys d) ->
  dict_keys (dict_set d k v) = dict_keys d ++ [k].
Proof.
  unfold dict_keys. induction d as [|[k' v'] d IH]; simpl; intros H; [reflexivity|].
  apply Forall_cons in H as [H1 H2]. rewrite H1. simpl. now rewrite IH.
Qed.

(** A write never removes or reorders keys: the old keys are a prefix. *)
Lemma dict_set_keys_prefix (d : dict) (k : float) (v : Z) :
  dict_keys (dict_set d k v) = dict_keys d \/ dict_keys (dict_set d k v) = dict_keys d ++ [k].
Proof.
  unfold dict_keys. induction d as [|[k' v'] d IH]; simpl; [now right|].
  destruct (k' =? k)%float; simpl; [now left|].
  destruct IH as [-> | ->]; auto.
Qed.


Lemma dict_update_cons (d : dict) (kv : float * Z) (ws : list (float * Z)) :
  dict_update d (kv :: ws) = dict_update (dict_set d (fst kv) (snd kv)) ws.
Proof. reflexivity. Qed.


(** Writes all of which are already in place change nothing. *)
Lemma dict_update_fixed (ws : list (float * Z)) (d : dict) :
  Forall (fun kv => dict_set d (fst kv) (snd kv) = d) ws -> dict_update d ws = d.
Proof.
  induction ws as [|w ws IH]; intros H; [reflexivity|].
  apply Forall_cons in H as [H1 H2]. rewrite dict_update_cons, H1. auto.
Qed.

Lemma functional_writes_tail (w : float * Z) (ws : list (float * Z)) :
  functional_writes (w :: ws) -> functional_writes ws.
Proof.
  intros [H1 H2]. split.
  - now apply Forall_cons in H1 as [_ H1].
  - intros kv kv' Hk Hk'. apply H2; now right.
Qed.

Lemma functional_writes_compat (ws : list (float * Z)) (kv kv' : float * Z) :
  functional_writes ws -> In kv ws -> In kv' ws ->
  forall x, (x =? fst kv)%float = true -> (x =? fst kv')%float = true -> snd kv' = snd kv.
Proof.
  intros [H1 H2] Hk Hk' x E E'.
  rewrite List.Forall_forall in H1.
  apply FloatOrderFacts.eqb_eq in E; [|now apply H1].
  apply FloatOrderFacts.eqb_eq in E'; [|now apply H1].
  apply H2; auto. congruence.
Qed.

(** After the writes, every one of them is in place. *)
Lemma dict_update_all_fixed (ws : list (float * Z)) (d : dict) :
  functional_writes ws ->
  Forall (fun kv => dict_set (dict_update d ws) (fst kv) (snd kv) = dict_update d ws) ws.
Proof.
  intros Hf.
  assert (Hpres : forall ws' d' kv,
             (forall kv', In kv' ws' ->
                forall x, (x =? fst kv)%float = true -> (x =? fst kv')%float = true ->
                          snd kv' = snd kv) ->
             dict_set d' (fst kv) (snd kv) = d' ->
             dict_set (dict_update d' ws') (fst kv) (snd kv) = dict_update d' ws').
  { induction ws' as [|w' ws' IH]; intros d' kv Hc Hfix; [exact Hfix|].
    rewrite dict_update_cons. apply IH.
    - intros kv' Hin. apply Hc. now right.
    - apply dict_set_fixed_preserved; [|exact Hfix]. apply Hc. now left. }
  revert d. induction ws as [|w ws IH]; intros d; [constructor|].
  rewrite dict_update_cons. constructor.
  - apply Hpres.
    + intros kv' Hin. apply (functional_writes_compat (w :: ws)); auto; [now left | now right].
    + apply dict_set_set. destruct Hf as [Hf _]. now apply Forall_cons in Hf as [[? _] _].
  - apply IH. now apply functional_writes_tail in Hf.
Qed.

Lemma dict_update_idempotent (ws : list (float * Z)) (d : dict) :
  functional_writes ws -> dict_update (dict_update d ws) ws = dict_update d ws.
Proof. intros Hf. apply dict_update_fixed. now apply dict_update_all_fixed. Qed.

Lemma dict_update_get (ws : list (float * Z)) (d : dict) (kv : float * Z) :
  functional_writes ws -> In kv ws -> dict_get (dict_update d ws) (fst kv) = Some (snd kv).
Proof.
  intros Hf Hin. apply dict_set_fixed_get.
  pose proof (dict_update_all_fixed ws d Hf) as H. rewrite List.Forall_forall in H. now apply H.
Qed.

Lemma dict_update_keys_fresh (ws : list (float * Z)) (d : dict) :
  StronglySorted (fun a b => (a =? b)%float = false) (dict_keys d ++ map fst ws) ->
  dict_keys (dict_update d ws) = dict_keys d ++ map fst ws.
Proof.
  revert d. induction ws as [|[k v] ws IH]; intros d H; simpl.
  - now rewrite app_nil_r.
  - assert (Hk : Forall (fun k' => (k' =? k)%float = false) (dict_keys d)).
    { clear IH. induction (dict_keys d) as [|a l IHl]; [constructor|].
      simpl in H. apply StronglySorted_inv in H as [H1 H2]. constructor.
      - rewrite List.Forall_forall in H2. apply H2. apply in_or_app. right. now left.
      - auto. }
    change (dict_update d ((k, v) :: ws)) with (dict_update (dict_set d k v) ws).
    rewrite IH; rewrite (dict_set_keys_fresh d k v Hk).
    + now rewrite <- app_assoc.
    + now rewrite <- app_assoc.
Qed.

(* ================================================================== *)
(** * The loops of [kdcalc] *)

Section KDFacts.

Variable cos : float -> float.

(** The body of the inner loop is one step of the rounding fold. *)
Lemma layer_hp_body_add_and_round (ls : list Layer) (shell_angle shell_ap : float)
      (L : nat) (acc : Z) :
  layer_hp_body cos ls shell_angle shell_ap L acc
  = match ls !! L with
    | None => Err IndexError
    | Some l => add_and_round cos shell_angle shell_ap acc l
    end.
Proof.
  unfold layer_hp_body, add_and_round, layer_hp.
  destruct (ls !! L); [|reflexivity].
  destruct (py_div _ _); simpl; [|reflexivity].
  destruct (math_cos _ _); reflexivity.
Qed.

(** The inner loop is the rounding fold over the layers except the last,
    and raises what the fold raises. *)
Lemma chunk_effective_hp_rounded (ls : list Layer) (shell_angle shell_ap : float) :
  match chunk_effective_hp cos ls shell_angle shell_ap with
  | Returns v => rounded_hp cos ls shell_angle shell_ap = Ok v
  | Raises e _ => rounded_hp cos ls shell_angle shell_ap = Err e
  | OutOfFuel => False
  end.
Proof.
  unfold chunk_effective_hp, rounded_hp.
  rewrite py_range_pred_length, non_last_take.
  pose proof (for_in_fold_res ls (add_and_round cos shell_angle shell_ap)
                (layer_hp_body cos ls shell_angle shell_ap)
                (layer_hp_body_add_and_round ls shell_angle shell_ap)
                (length ls - 1) 0 0) as H.
  rewrite drop_0 in H. apply H. lia.
Qed.

Lemma fold_res_append_ac (l : list Layer) (acc : list float) :
  fold_res (fun acc (x : Layer) => Ok (acc ++ [ac x])) l acc = Ok (acc ++ map ac l).
Proof.
  revert acc. induction l as [|x l IH]; intros acc; simpl.
  - now rewrite app_nil_r.
  - rewrite IH. now rewrite <- app_assoc.
Qed.

(** The first loop collects the [ac] of every layer except the last. *)
Lemma layer_ac_loop (ls : list Layer) :
  for_in (py_range (Z.of_nat (length ls) - 1)) (layer_ac_body ls) []
  = Returns (map ac (non_last ls)).
Proof.
  rewrite py_range_pred_length, non_last_take.
  pose proof (for_in_fold_res ls (fun acc (x : Layer) => Ok (acc ++ [ac x]))
                (layer_ac_body ls) (fun L s => eq_refl) (length ls - 1) 0 []) as H.
  rewrite drop_0, fold_res_append_ac in H. simpl in H.
  destruct (for_in _ _ _) as [v|e v|].
  - injection H as <-; [reflexivity | lia].
  - discriminate H. lia.
  - destruct H. lia.
Qed.

Lemma kdcalc_unfold (fuel : nat) (c : ArmorChunk) (shell_angle : float) :
  kdcalc cos fuel c shell_angle
  = match py_max (map ac (non_last (layers c))) with
    | Err e => Raises e c
    | Ok max_ap =>
        outcome_map (with_KD c)
          (kdcalc_while cos fuel (layers c) max_ap shell_angle 0.1%float (KD_required c))
    end.
Proof. unfold kdcalc. now rewrite layer_ac_loop. Qed.

(** What a finished run of the [while] loop did. *)
Lemma kdcalc_while_run (fuel : nat) (ls : list Layer) (max_ap shell_angle : float) :
  forall (shell_ap : float) (KD : dict),
    match kdcalc_while cos fuel ls max_ap shell_angle shell_ap KD with
    | Returns KD' =>
        exists ws, ap_run cos ls max_ap shell_angle shell_ap ws None
                   /\ (length ws <= fuel)%nat /\ KD' = dict_update KD ws
    | Raises e KD' =>
        exists ws, ap_run cos ls max_ap shell_angle shell_ap ws (Some e)
                   /\ (length ws < fuel)%nat /\ KD' = dict_update KD ws
    | OutOfFuel => True
    end.
Proof.
  induction fuel as [|fuel IH]; intros shell_ap KD; simpl.
  - destruct (shell_ap <=? max_ap)%float eqn:G; [exact I|].
    exists []. split; [constructor; assumption | split; [simpl; lia | reflexivity]].
  - destruct (shell_ap <=? max_ap)%float eqn:G.
    2:{ exists []. split; [constructor; assumption | split; [simpl; lia | reflexivity]]. }
    pose proof (chunk_effective_hp_rounded ls shell_angle shell_ap) as Hv.
    destruct (chunk_effective_hp cos ls shell_angle shell_ap) as [v|e v|]; [| |destruct Hv].
    + specialize (IH (next_ap shell_ap) (dict_set KD shell_ap v)).
      destruct (kdcalc_while _ _ _ _ _ _ _) as [KD'|e KD'|]; [| |exact I].
      * destruct IH as (ws & Hrun & Hlen & ->).
        exists ((shell_ap, v) :: ws). split; [constructor; assumption | split; [simpl; lia | reflexivity]].
      * destruct IH as (ws & Hrun & Hlen & ->).
        exists ((shell_ap, v) :: ws). split; [constructor; assumption | split; [simpl; lia | reflexivity]].
    + exists []. split; [constructor; assumption | split; [simpl; lia | reflexivity]].
Qed.

(** A run, given enough fuel, is what the [while] loop does. *)
Lemma ap_run_kdcalc_while (ls : list Layer) (max_ap shell_angle shell_ap : float)
      (ws : list (float * Z)) (fin : option exn) :
  ap_run cos ls max_ap shell_angle shell_ap ws fin ->
  forall (fuel : nat) (KD : dict),
    (length ws + match fin with Some _ => 1 | None => 0 end <= fuel)%nat ->
    kdcalc_while cos fuel ls max_ap shell_angle shell_ap KD
    = match fin with
      | None => Returns (dict_update KD ws)
      | Some e => Raises e (dict_update KD ws)
      end.
Proof.
  induction 1 as [s G | s e G Hv | s v ws fin G Hv Hrun IH]; intros fuel KD Hfuel.
  - destruct fuel; simpl; now rewrite G.
  - destruct fuel as [|fuel]; [simpl in Hfuel; lia|]. simpl. rewrite G.
    pose proof (chunk_effective_hp_rounded ls shell_angle s) as Hc.
    destruct (chunk_effective_hp cos ls shell_angle s) as [v'|e' v'|]; [congruence | | destruct Hc].
    rewrite Hv in Hc. now injection Hc as <-.
  - destruct fuel as [|fuel]; [simpl in Hfuel; lia|]. simpl. rewrite G.
    pose proof (chunk_effective_hp_rounded ls shell_angle s) as Hc.
    destruct (chunk_effective_hp cos ls shell_angle s) as [v'|e' v'|]; [ | congruence | destruct Hc].
    rewrite Hv in Hc. injection Hc as <-.
    rewrite (IH fuel (dict_set KD s v)); [reflexivity | simpl in Hfuel; lia].
Qed.

(** Every entry a run writes has a key within [max_ap] and the value of
    the rounding fold at that key. *)
Lemma ap_run_values (ls : list Layer) (max_ap shell_angle shell_ap : float)
      (ws : list (float * Z)) (fin : option exn) :
  ap_run cos ls max_ap shell_angle shell_ap ws fin ->
  Forall (fun kv => (fst kv <=? max_ap)%float = true
                    /\ rounded_hp cos ls shell_angle (fst kv) = Ok (snd kv)) ws.
Proof. induction 1; constructor; auto. Qed.

(** The keys a run writes are the successive values of [shell_ap]. *)
Lemma ap_run_keys (ls : list Layer) (max_ap shell_angle shell_ap : float)
      (ws : list (float * Z)) (fin : option exn) :
  ap_run cos ls max_ap shell_angle shell_ap ws fin ->
  map fst ws = map (fun j => Nat.iter j next_ap shell_ap) (seq 0 (length ws)).
Proof.
  induction 1 as [s G | s e G Hv | s v ws fin G Hv Hrun IH]; [reflexivity..|].
  simpl. f_equal. rewrite IH, <- seq_shift, map_map.
  apply map_ext. intros j. now rewrite Nat.iter_succ_r.
Qed.

(** A run that ends normally ends at the first value of [shell_ap] that
    is not within [max_ap]. *)
Lemma ap_run_end (ls : list Layer) (max_ap shell_angle shell_ap : float)
      (ws : list (float * Z)) :
  ap_run cos ls max_ap shell_angle shell_ap ws None ->
  (Nat.iter (length ws) next_ap shell_ap <=? max_ap)%float = false.
Proof.
  intros H. remember None as fin eqn:E.
  induction H as [s G | s e G Hv | s v ws fin G Hv Hrun IH]; [exact G | discriminate |].
  simpl length. rewrite Nat.iter_succ_r. auto.
Qed.

(** The fold divides by [shell_ap] when there is a layer to add. *)
Lemma rounded_hp_nonzero (ls : list Layer) (shell_angle shell_ap : float) (v : Z) :
  non_last ls <> [] ->
  rounded_hp cos ls shell_angle shell_ap = Ok v -> (shell_ap =? 0)%float = false.
Proof.
  unfold rounded_hp. destruct (non_last ls) as [|l rest]; [congruence|]. intros _.
  simpl. unfold add_and_round at 1, layer_hp, py_div.
  destruct (shell_ap =? 0)%float; [discriminate | reflexivity].
Qed.

Lemma ap_run_functional (ls : list Layer) (max_ap shell_angle shell_ap : float)
      (ws : list (float * Z)) (fin : option exn) :
  non_last ls <> [] ->
  ap_run cos ls max_ap shell_angle shell_ap ws fin -> functional_writes ws.
Proof.
  intros Hne Hrun. apply ap_run_values in Hrun. rewrite List.Forall_forall in Hrun.
  split.
  - apply List.Forall_forall. intros kv Hin. destruct (Hrun kv Hin) as [G Hv]. split.
    + now apply FloatOrderFacts.leb_eqb_refl in G.
    + now apply rounded_hp_nonzero in Hv.
  - intros kv kv' Hin Hin' E.
    destruct (Hrun kv Hin) as [_ Hv], (Hrun kv' Hin') as [_ Hv'].
    rewrite E in Hv. congruence.
Qed.

(** The only exceptions of the fold are those of the division, of
    [math.cos] and of [round]. *)
Lemma add_and_round_exn (shell_angle shell_ap : float) (acc : Z) (l : Layer) (e : exn) :
  add_and_round cos shell_angle shell_ap acc l = Err e ->
  e <> IndexError /\ e <> ValueError_max_empty.
Proof.
  unfold add_and_round, layer_hp, py_div, math_cos, int_to_float, py_round.
  destruct (shell_ap =? 0)%float; simpl; [intros [= <-]; split; discriminate|].
  destruct (is_nan (cos shell_angle) && negb (is_nan shell_angle)); simpl;
    [intros [= <-]; split; discriminate|].
  destruct (is_infinity (cos shell_angle) && is_finite shell_angle); simpl;
    [intros [= <-]; split; discriminate|].
  destruct (binary_normalize prec emax acc 0 false); simpl;
    try (intros [= <-]; split; discriminate);
    destruct (Prim2SF _); intros [= <-]; split; discriminate.
Qed.

Lemma rounded_hp_exn (ls : list Layer) (shell_angle shell_ap : float) (e : exn) :
  rounded_hp cos ls shell_angle shell_ap = Err e ->
  e <> IndexError /\ e <> ValueError_max_empty.
Proof.
  unfold rounded_hp. generalize 0 as acc.
  induction (non_last ls) as [|l rest IH]; intros acc; simpl; [discriminate|].
  destruct (add_and_round cos shell_angle shell_ap acc l) as [a|e'] eqn:E; simpl.
  - apply IH.
  - intros [= <-]. now apply add_and_round_exn in E.
Qed.

Lemma ap_run_exn (ls : list Layer) (max_ap shell_angle shell_ap : float)
      (ws : list (float * Z)) (e : exn) :
  ap_run cos ls max_ap shell_angle shell_ap ws (Some e) ->
  e <> IndexError /\ e <> ValueError_max_empty.
Proof.
  intros H. remember (Some e) as fin eqn:E.
  induction H as [s G | s e' G Hv | s v ws fin G Hv Hrun IH];
    [discriminate | | auto].
  injection E as ->. now apply rounded_hp_exn in Hv.
Qed.

End KDFacts.

(** [max] returns an item of the list that no item is greater than. *)
Lemma py_max_spec (xs : list float) (m : float) :
  py_max xs = Ok m -> In m xs /\ Forall (fun x => (m <? x)%float = false) xs.
Proof.
  destruct xs as [|x rest]; [discriminate|]. simpl. intros [= <-].
  assert (H : forall l m0 seen,
             In m0 seen -> Forall (fun x => (m0 <? x)%float = false) seen ->
             let m := fold_left (fun maxval item => if (maxval <? item)%float then item else maxval) l m0 in
             In m (seen ++ l) /\ Forall (fun x => (m <? x)%float = false) (seen ++ l)).
  { induction l as [|y l IH]; intros m0 seen Hin Hmax; simpl.
    - now rewrite app_nil_r.
    - replace (seen ++ y :: l) with ((seen ++ [y]) ++ l) by now rewrite <- app_assoc.
      destruct (m0 <? y)%float eqn:E.
      + apply IH.
        * apply in_or_app. right. now left.
        * apply Forall_app. split.
          -- eapply Forall_impl; [exact Hmax|]. intros a Ha. simpl in Ha.
             eapply FloatOrderFacts.ltb_false_step; eauto.
          -- constructor; [apply FloatOrderFacts.ltb_irrefl | constructor].
      + apply IH.
        * apply in_or_app. now left.
        * apply Forall_app. split; [exact Hmax|]. constructor; [exact E | constructor]. }
  apply (H rest x [x]).
  - now left.
  - constructor; [apply FloatOrderFacts.ltb_irrefl | constructor].
Qed.

Lemma py_max_nonempty (xs : list float) (m : float) : py_max xs = Ok m -> xs <> [].
Proof. destruct xs; [discriminate | discriminate]. Qed.

(* ================================================================== *)
(** * The chunks the driver builds *)

Lemma add_material_layers (c : ArmorChunk) (m : material) :
  layers (add_material c m) = layers c ++ [material_layer m].
Proof. now destruct m. Qed.

Lemma chunk_of_layers (ms : list material) :
  layers (chunk_of ms) = map material_layer ms.
Proof.
  unfold chunk_of.
  assert (H : forall c, layers (fold_left add_material ms c)
                        = layers c ++ map material_layer ms).
  { induction ms as [|m ms IH]; intros c; simpl.
    - now rewrite app_nil_r.
    - rewrite IH, add_material_layers. now rewrite <- app_assoc. }
  apply H.
Qed.

(* ================================================================== *)
(** * The effective-AC pass *)

(** C1.  A single run of [armorcalc] returns normally, keeps the number
    of layers, and sets the [ac] of the layer at every index [i] that has a
    successor to its own [ac] before the pass plus 0.2 times the [ac]
    before the pass of layer [i+1] when both layers are structural, and to
    its own [ac] before the pass otherwise.  The boost is taken from the
    successor's [ac] before the pass, so boosts do not compound.  For two
    structural layers, layer 0 ends at [ac0 + 0.2 * ac1] and layer 1 keeps
    its [ac]. *)
Theorem armorcalc_effective_ac (c : ArmorChunk) :
  exists c',
    armorcalc c = Returns c'
    /\ length (layers c') = length (layers c)
    /\ (forall (i : nat) (current next : Layer),
          layers c !! i = Some current -> layers c !! S i = Some next ->
          ac <$> layers c' !! i
          = Some (if is_structural current && is_structural next
                  then ac current + 0.2 * ac next else ac current)%float)
    /\ (forall l0 l1 : Layer,
          layers c = [l0; l1] -> is_structural l0 = true -> is_structural l1 = true ->
          map ac (layers c') = [(ac l0 + 0.2 * ac l1)%float; ac l1]).
Proof.
  exists (with_layers c (effective_ac (layers c))).
  split; [apply armorcalc_returns|]. simpl.
  split; [apply effective_ac_length|]. split.
  - intros i current next Hi Hn. rewrite effective_ac_lookup, Hi, Hn. simpl.
    rewrite boost_ac, (float_mul_comm 0.2). reflexivity.
  - intros l0 l1 -> H0 H1. simpl. unfold boost. rewrite H0, H1. simpl.
    now rewrite (float_mul_comm 0.2).
Qed.

(** The two-layer case of C1 on a layer of metal over a layer of wood. *)
Lemma armorcalc_effective_ac_witness :
  exists c',
    armorcalc (chunk_of [METAL; WOOD]) = Returns c'
    /\ map ac (layers c') = [41.6%float; 8%float].
Proof.
  destruct (armorcalc_effective_ac (chunk_of [METAL; WOOD])) as (c' & H1 & _ & _ & H2).
  exists c'. split; [exact H1|].
  exact (H2 (material_layer METAL) (material_layer WOOD) eq_refl eq_refl eq_refl).
Defined.

(** C5, as stated, fails: on [absorbing_chunk], two structural layers whose
    second has a nonzero [ac], neither the first nor a second run changes
    any layer. *)
Lemma armorcalc_second_run_absorbed :
  map is_structural (layers absorbing_chunk) = [true; true]
  /\ map (fun l => py_ne (ac l) 0) (layers absorbing_chunk) = [true; true]
  /\ armorcalc absorbing_chunk = Returns absorbing_chunk.
Proof. repeat split. Qed.

(** C5, amended.  [armorcalc] is not idempotent.  On two structural
    layers a second run adds the boost [0.2 * ac1] again, leaving layer 0
    at [(ac0 + 0.2 * ac1) + 0.2 * ac1].  On every chunk built from the
    material table, at every pair of adjacent structural layers, the
    second run changes the [ac] of the first layer of the pair again. *)
Theorem armorcalc_not_idempotent :
  (forall (c : ArmorChunk) (l0 l1 : Layer),
      layers c = [l0; l1] -> is_structural l0 = true -> is_structural l1 = true ->
      exists c1 c2,
        armorcalc c = Returns c1 /\ armorcalc c1 = Returns c2
        /\ map ac (layers c1) = [(ac l0 + 0.2 * ac l1)%float; ac l1]
        /\ map ac (layers c2) = [(ac l0 + 0.2 * ac l1 + 0.2 * ac l1)%float; ac l1])
  /\ (forall (ms : list material) (i : nat) (m m' : material),
         ms !! i = Some m -> ms !! S i = Some m' -> m <> AIR -> m' <> AIR ->
         exists c1 c2 l1 l2,
           armorcalc (chunk_of ms) = Returns c1 /\ armorcalc c1 = Returns c2
           /\ layers c1 !! i = Some l1 /\ layers c2 !! i = Some l2
           /\ py_ne (ac l2) (ac l1) = true).
Proof.
  split.
  - intros c l0 l1 Hc H0 H1.
    exists (with_layers c (effective_ac (layers c))).
    exists (with_layers c (effective_ac (effective_ac (layers c)))).
    split; [apply armorcalc_returns|].
    split; [rewrite armorcalc_returns; reflexivity|].
    rewrite Hc. simpl. unfold boost. simpl. rewrite H0, H1. simpl. rewrite H0. simpl.
    rewrite (float_mul_comm 0.2). split; reflexivity.
  - intros ms i m m' Hi Hi' Hm Hm'.
    set (ls := layers (chunk_of ms)).
    assert (Hls : ls = map material_layer ms) by apply chunk_of_layers.
    assert (L0 : ls !! i = Some (material_layer m)).
    { rewrite Hls, list_lookup_fmap, Hi. reflexivity. }
    assert (L1 : ls !! S i = Some (material_layer m')).
    { rewrite Hls, list_lookup_fmap, Hi'. reflexivity. }
    assert (L2 : ls !! S (S i) = material_layer <$> ms !! S (S i)).
    { rewrite Hls. apply list_lookup_fmap. }
    eexists (with_layers (chunk_of ms) (effective_ac ls)).
    eexists (with_layers (chunk_of ms) (effective_ac (effective_ac ls))).
    eexists _, _.
    split; [apply armorcalc_returns|].
    split; [rewrite armorcalc_returns; reflexivity|].
    split; [simpl; rewrite effective_ac_lookup, L0, L1; reflexivity|].
    split.
    { simpl. rewrite effective_ac_lookup, !effective_ac_lookup, L0, L1, L2. reflexivity. }
    destruct (ms !! S (S i)) as [m''|]; simpl.
    + destruct m, m'; try contradiction; destruct m''; vm_compute; reflexivity.
    + destruct m, m'; try contradiction; vm_compute; reflexivity.
Qed.

(** The second part of the amended C5 on metal over wood. *)
Lemma armorcalc_not_idempotent_witness :
  exists c1 c2 l1 l2,
    armorcalc (chunk_of [METAL; WOOD]) = Returns c1 /\ armorcalc c1 = Returns c2
    /\ layers c1 !! 0%nat = Some l1 /\ layers c2 !! 0%nat = Some l2
    /\ py_ne (ac l2) (ac l1) = true.
Proof.
  apply (proj2 armorcalc_not_idempotent [METAL; WOOD] 0%nat METAL WOOD);
    [reflexivity | reflexivity | discriminate | discriminate].
Defined.

(* ================================================================== *)
(** * Chunks of at most one layer *)

(** C6, as stated, fails: on the empty chunk and on a chunk of one layer
    [kdcalc] raises, before its loops run. *)
Lemma kdcalc_short_chunk_raises :
  kdcalc cos_series 0 new_chunk 0 = Raises ValueError_max_empty new_chunk
  /\ kdcalc cos_series 0 (chunk_of [METAL]) 0
     = Raises ValueError_max_empty (chunk_of [METAL]).
Proof. split; reflexivity. Qed.

(** C6, amended.  On a chunk of at most one layer the range both passes
    loop over is empty; [armorcalc] returns and leaves the chunk as it
    was; [kdcalc] adds up no layer and raises [ValueError] from [max] of the
    empty list, whatever the angle, leaving the chunk as it was. *)
Theorem short_chunk_passes (cos : float -> float) (c : ArmorChunk)
        (fuel : nat) (shell_angle : float) :
  (length (layers c) <= 1)%nat ->
  py_range (Z.of_nat (length (layers c)) - 1) = []
  /\ armorcalc c = Returns c
  /\ kdcalc cos fuel c shell_angle = Raises ValueError_max_empty c.
Proof.
  intros H. split; [now apply py_range_short|]. split.
  - rewrite armorcalc_returns.
    destruct c as [[|l [|l' ls]] KD]; simpl in *; try reflexivity; lia.
  - rewrite kdcalc_unfold.
    destruct c as [[|l [|l' ls]] KD]; simpl in *; try reflexivity; lia.
Qed.

Lemma short_chunk_passes_witness :
  py_range (Z.of_nat (length (layers (chunk_of [METAL]))) - 1) = []
  /\ armorcalc (chunk_of [METAL]) = Returns (chunk_of [METAL])
  /\ kdcalc cos_series 7 (chunk_of [METAL]) 90
     = Raises ValueError_max_empty (chunk_of [METAL]).
Proof.
  apply (short_chunk_passes cos_series (chunk_of [METAL]) 7 90). simpl. lia.
Defined.

(* ================================================================== *)
(** * What the passes leave alone *)

(** C8.  [armorcalc] keeps every layer's [hp] and [is_structural], the
    number and order of the layers, the last layer (so its [ac]) and
    [KD_required].  [kdcalc] keeps the list of layers as it is, whether it
    returns or raises. *)
Theorem passes_frame (cos : float -> float) (c : ArmorChunk) :
  (exists c',
      armorcalc c = Returns c'
      /\ map hp (layers c') = map hp (layers c)
      /\ map is_structural (layers c') = map is_structural (layers c)
      /\ length (layers c') = length (layers c)
      /\ last (layers c') = last (layers c)
      /\ KD_required c' = KD_required c)
  /\ (forall (fuel : nat) (shell_angle : float),
         match kdcalc cos fuel c shell_angle with
         | Returns c' | Raises _ c' => layers c' = layers c
         | OutOfFuel => True
         end).
Proof.
  split.
  - exists (with_layers c (effective_ac (layers c))).
    split; [apply armorcalc_returns|]. simpl.
    auto using effective_ac_hp, effective_ac_is_structural, effective_ac_length,
      effective_ac_last.
  - intros fuel shell_angle. rewrite kdcalc_unfold.
    destruct (py_max _); [|reflexivity].
    destruct (kdcalc_while _ _ _ _ _ _ _); simpl; auto.
Qed.

(* ================================================================== *)
(** * The values of [shell_ap] up to [max_ap_bound] *)

(** Checked by evaluation: from each of the floats nearest to 0.0, 0.1,
    ..., 1000.0 the loop steps to the next one, which is larger. *)
Lemma ap_steps_table : ap_steps_ok ap_table_size 0 (ap_value 0) = true.
Proof. vm_compute. reflexivity. Qed.

Lemma ap_steps_ok_step (n : nat) :
  forall j k : nat,
    ap_steps_ok n (Z.of_nat j) (ap_value j) = true ->
    (j <= k < j + n)%nat -> ap_step_ok k = true.
Proof.
  induction n as [|n IH]; intros j k H Hk; [lia|].
  cbn [ap_steps_ok] in H. cbv zeta in H.
  replace (Z.of_nat j + 1) with (Z.of_nat (S j)) in H by lia.
  fold (ap_value (S j)) in H.
  rewrite !andb_true_iff in H. destruct H as [[[H1 H2] H3] H4].
  destruct (Nat.eq_dec k j) as [->|Hne].
  - unfold ap_step_ok. now rewrite H1, H2, H3.
  - apply (IH (S j)); [exact H4 | lia].
Qed.

Lemma ap_table : forallb ap_step_ok (seq 0 ap_table_size) = true.
Proof.
  apply forallb_forall. intros k Hk. apply in_seq in Hk.
  apply (ap_steps_ok_step ap_table_size 0 k); [exact ap_steps_table | lia].
Qed.

Lemma ap_step (k : nat) :
  (k <= ap_last)%nat ->
  next_ap (ap_value k) = ap_value (S k) /\ (ap_value k <? ap_value (S k))%float = true.
Proof.
  intros Hk. pose proof ap_table as H. rewrite forallb_forall in H.
  specialize (H k). unfold ap_step_ok in H.
  rewrite !andb_true_iff, negb_true_iff in H.
  destruct H as [[H1 H2] H3]; [apply in_seq; unfold ap_table_size; lia|].
  split; [|exact H2]. now apply FloatOrderFacts.eqb_eq.
Qed.

Lemma ap_value_beyond_bound : (ap_value (S ap_last) <=? max_ap_bound)%float = false.
Proof. vm_compute. reflexivity. Qed.

Lemma ap_iter_value (j : nat) : (j <= ap_last)%nat -> ap_iter j = ap_value (S j).
Proof.
  induction j as [|j IH]; intros Hj.
  - vm_compute. reflexivity.
  - unfold ap_iter in *. simpl. rewrite IH by lia. apply ap_step. lia.
Qed.

Lemma ap_value_lt (i j : nat) :
  (i < j)%nat -> (j <= S ap_last)%nat -> (ap_value i <? ap_value j)%float = true.
Proof.
  induction j as [|j IH]; intros Hij Hj; [lia|].
  destruct (Nat.eq_dec i j) as [->|Hne].
  - apply ap_step. lia.
  - apply FloatOrderFacts.ltb_trans with (ap_value j).
    + apply IH; lia.
    + apply ap_step. lia.
Qed.

Lemma ap_value_sorted (n k : nat) :
  (k + n <= S ap_last)%nat ->
  StronglySorted (fun a b => (a <? b)%float = true) (map ap_value (seq k n)).
Proof.
  revert k. induction n as [|n IH]; intros k Hk; simpl; constructor.
  - apply IH. lia.
  - apply List.Forall_forall. intros x Hx. apply in_map_iff in Hx as (i & <- & Hi).
    apply in_seq in Hi. apply ap_value_lt; lia.
Qed.

Lemma StronglySorted_impl {A : Type} (R R' : A -> A -> Prop) (l : list A) :
  (forall a b, R a b -> R' a b) -> StronglySorted R l -> StronglySorted R' l.
Proof.
  intros H. induction 1 as [|a l Hs IH Hf]; constructor; auto.
  eapply Forall_impl; eauto.
Qed.

Section BoundedRuns.

Variable cos : float -> float.

(** Within the bound, a run from the [j]-th value of [shell_ap] stays
    inside the table. *)
Lemma ap_run_bounded (ls : list Layer) (max_ap shell_angle : float)
      (s : float) (ws : list (float * Z)) (fin : option exn) :
  (max_ap <=? max_ap_bound)%float = true ->
  ap_run cos ls max_ap shell_angle s ws fin ->
  forall j : nat, s = ap_iter j -> (j <= ap_last)%nat -> (j + length ws <= ap_last)%nat.
Proof.
  intros Hmax. induction 1 as [s G | s e G Hv | s v ws fin G Hv Hrun IH];
    intros j Hs Hj; simpl; [lia | lia |].
  assert (j <> ap_last).
  { intros ->. rewrite Hs, ap_iter_value in G by lia.
    pose proof (FloatOrderFacts.leb_trans _ _ _ G Hmax) as H.
    rewrite ap_value_beyond_bound in H. discriminate. }
  specialize (IH (S j)). rewrite Hs in IH. specialize (IH eq_refl). lia.
Qed.

(** Within the bound the [while] loop ends within 10000 runs of its
    body. *)
Lemma kdcalc_while_ends (ls : list Layer) (max_ap shell_angle : float) :
  (max_ap <=? max_ap_bound)%float = true ->
  forall (d j fuel : nat) (KD : dict),
    (j + d = ap_last)%nat -> (d <= fuel)%nat ->
    kdcalc_while cos fuel ls max_ap shell_angle (ap_iter j) KD <> OutOfFuel.
Proof.
  intros Hmax. induction d as [|d IH]; intros j fuel KD Hj Hfuel.
  - assert (G : (ap_iter j <=? max_ap)%float = false).
    { destruct (ap_iter j <=? max_ap)%float eqn:G; [|reflexivity].
      rewrite ap_iter_value in G by lia.
      replace (S j) with (S ap_last) in G by lia.
      pose proof (FloatOrderFacts.leb_trans _ _ _ G Hmax) as H.
      rewrite ap_value_beyond_bound in H. discriminate. }
    destruct fuel; simpl; rewrite G; discriminate.
  - destruct fuel as [|fuel]; [lia|]. simpl.
    destruct (ap_iter j <=? max_ap)%float; [|discriminate].
    pose proof (chunk_effective_hp_rounded cos ls shell_angle (ap_iter j)) as Hc.
    destruct (chunk_effective_hp cos ls shell_angle (ap_iter j)); [|discriminate|destruct Hc].
    apply (IH (S j)); lia.
Qed.

End BoundedRuns.

(* ================================================================== *)
(** * Float facts used by the angle-0 case *)

Lemma math_cos_value (cos : float -> float) (x r : float) :
  math_cos cos x = Ok r -> r = cos x.
Proof.
  unfold math_cos. destruct (_ && _); [discriminate|].
  destruct (_ && _); [discriminate|]. now intros [= <-].
Qed.

(** Adding a product with zero to zero and rounding gives 0, when it
    gives anything. *)
Lemma round_zero_product (x : float) (a : Z) :
  py_round (0 + x * 0)%float = Ok a -> a = 0.
Proof.
  unfold py_round. rewrite add_spec, mul_spec.
  change (Prim2SF 0) with (S754_zero false).
  destruct (Prim2SF x) as [s|s| |s m e]; simpl.
  - destruct s; simpl; now intros [= <-].
  - discriminate.
  - discriminate.
  - destruct s; simpl; now intros [= <-].
Qed.

Lemma add_and_round_zero_angle (cos : float -> float) (shell_ap : float) (l : Layer) (a : Z) :
  cos 0%float = 1%float ->
  add_and_round cos 0 shell_ap 0 l = Ok a -> a = 0.
Proof.
  intros Hcos. unfold add_and_round, layer_hp, py_div, math_cos. rewrite Hcos.
  destruct (shell_ap =? 0)%float; [discriminate|].
  change (is_nan 1 && negb (is_nan 0)) with false.
  change (is_infinity 1 && is_finite 0) with false.
  change (int_to_float 0) with (Ok 0%float).
  change (1 - 1)%float with 0%float.
  cbn [bind]. apply round_zero_product.
Qed.

Lemma rounded_hp_zero_angle (cos : float -> float) (ls : list Layer)
      (shell_ap : float) (v : Z) :
  cos 0%float = 1%float ->
  rounded_hp cos ls 0 shell_ap = Ok v -> v = 0.
Proof.
  intros Hcos. unfold rounded_hp.
  induction (non_last ls) as [|l rest IH]; simpl.
  - now intros [= <-].
  - destruct (add_and_round cos 0 shell_ap 0 l) as [a|e] eqn:E; simpl; [|discriminate].
    apply add_and_round_zero_angle in E; [|exact Hcos]. subst a. exact IH.
Qed.

(* ================================================================== *)
(** * The KD pass *)

Lemma py_max_non_last (ls : list Layer) (max_ap : float) :
  py_max (map ac (non_last ls)) = Ok max_ap -> non_last ls <> [].
Proof. destruct (non_last ls); [discriminate | discriminate]. Qed.

Lemma py_max_two_layers (ls : list Layer) :
  (2 <= length ls)%nat -> exists max_ap, py_max (map ac (non_last ls)) = Ok max_ap.
Proof.
  intros H. pose proof (non_last_length ls) as Hl.
  destruct (non_last ls) as [|l rest]; [simpl in Hl; lia|].
  simpl. eauto.
Qed.

(** What a call of [kdcalc] that returns or raises did: the maximum it
    computed, and the run of its [while] loop. *)
Lemma kdcalc_run (cos : float -> float) (fuel : nat) (c : ArmorChunk)
      (shell_angle : float) (max_ap : float) :
  py_max (map ac (non_last (layers c))) = Ok max_ap ->
  match kdcalc cos fuel c shell_angle with
  | Returns c' =>
      exists ws, ap_run cos (layers c) max_ap shell_angle 0.1%float ws None
                 /\ (length ws <= fuel)%nat
                 /\ c' = with_KD c (dict_update (KD_required c) ws)
  | Raises e c' =>
      exists ws, ap_run cos (layers c) max_ap shell_angle 0.1%float ws (Some e)
                 /\ (length ws < fuel)%nat
                 /\ c' = with_KD c (dict_update (KD_required c) ws)
  | OutOfFuel => True
  end.
Proof.
  intros Hmax. rewrite kdcalc_unfold, Hmax.
  pose proof (kdcalc_while_run cos fuel (layers c) max_ap shell_angle 0.1%float
                (KD_required c)) as H.
  destruct (kdcalc_while _ _ _ _ _ _ _) as [KD'|e KD'|]; simpl; [| |exact I];
    destruct H as (ws & Hrun & Hlen & ->); eauto.
Qed.

(* ================================================================== *)
(** * The angle multiplier *)

(** When the rounding fold has a layer to add and gives a value,
    [math.cos] has returned the cosine of the angle as it was given. *)
Lemma rounded_hp_cos (cos : float -> float) (ls : list Layer)
      (shell_angle shell_ap : float) (v : Z) :
  non_last ls <> [] ->
  rounded_hp cos ls shell_angle shell_ap = Ok v ->
  math_cos cos shell_angle = Ok (cos shell_angle).
Proof.
  unfold rounded_hp. destruct (non_last ls) as [|l rest]; [congruence|]. intros _.
  simpl. unfold add_and_round at 1, layer_hp.
  destruct (py_div (ac l) shell_ap); simpl; [|discriminate].
  destruct (math_cos cos shell_angle) as [r|e] eqn:E; simpl; [|discriminate].
  intros _. now rewrite (math_cos_value cos shell_angle r E).
Qed.

(** The rounding fold written out, with the multiplier
    [1 - cos shell_angle] in it. *)
Lemma rounded_hp_multiplier (cos : float -> float) (ls : list Layer)
      (shell_angle shell_ap : float) (v : Z) :
  non_last ls <> [] ->
  rounded_hp cos ls shell_angle shell_ap = Ok v ->
  fold_res (fun (sum : Z) (l : Layer) =>
              previous <- int_to_float sum ;;
              py_round (previous
                        + hp l * (ac l / shell_ap) * (1 - cos shell_angle))%float)
           (non_last ls) 0 = Ok v.
Proof.
  intros Hne Hv.
  pose proof (rounded_hp_nonzero cos ls shell_angle shell_ap v Hne Hv) as Hap.
  pose proof (rounded_hp_cos cos ls shell_angle shell_ap v Hne Hv) as Hcos.
  rewrite <- Hv. unfold rounded_hp. apply fold_res_ext. intros sum l.
  unfold add_and_round, layer_hp, py_div. rewrite Hap, Hcos. reflexivity.
Qed.

(** [kdcalc] uses the cosine at [shell_angle] and nowhere else. *)
Lemma kdcalc_cos_ext (cos1 cos2 : float -> float) (fuel : nat) (c : ArmorChunk)
      (shell_angle : float) :
  cos1 shell_angle = cos2 shell_angle ->
  kdcalc cos1 fuel c shell_angle = kdcalc cos2 fuel c shell_angle.
Proof.
  intros Hcos.
  assert (Hbody : forall ls shell_ap,
             chunk_effective_hp cos1 ls shell_angle shell_ap
             = chunk_effective_hp cos2 ls shell_angle shell_ap).
  { intros ls shell_ap. unfold chunk_effective_hp. apply for_in_ext.
    intros i s. unfold layer_hp_body, math_cos. now rewrite Hcos. }
  rewrite !kdcalc_unfold. destruct (py_max _) as [max_ap|e]; [|reflexivity].
  f_equal. generalize (KD_required c) as KD. generalize 0.1%float as shell_ap.
  induction fuel as [|fuel IH]; intros shell_ap KD; simpl.
  - reflexivity.
  - rewrite Hbody. destruct (shell_ap <=? max_ap)%float; [|reflexivity].
    destruct (chunk_effective_hp cos2 (layers c) shell_angle shell_ap); auto.
Qed.

(** The entry a run writes at its [j]-th step. *)
Lemma ap_run_entry (cos : float -> float) (ls : list Layer)
      (max_ap shell_angle : float) (ws : list (float * Z)) (fin : option exn) (j : nat) :
  ap_run cos ls max_ap shell_angle 0.1%float ws fin ->
  (j < length ws)%nat ->
  exists v : Z,
    In (ap_iter j, v) ws
    /\ (ap_iter j <=? max_ap)%float = true
    /\ rounded_hp cos ls shell_angle (ap_iter j) = Ok v.
Proof.
  intros Hrun Hj.
  pose proof (ap_run_keys _ _ _ _ _ _ _ Hrun) as Hkeys.
  pose proof (ap_run_values _ _ _ _ _ _ _ Hrun) as Hvals.
  destruct (nth_error ws j) as [[k v]|] eqn:Hkv.
  2:{ apply nth_error_None in Hkv. lia. }
  assert (Hk : k = ap_iter j).
  { apply (map_nth_error fst) in Hkv. rewrite Hkeys in Hkv.
    rewrite nth_error_map, nth_error_seq in Hkv.
    destruct (j <? length ws)%nat eqn:E; [|apply Nat.ltb_ge in E; lia].
    simpl in Hkv. now injection Hkv as <-. }
  subst k. apply nth_error_In in Hkv.
  rewrite List.Forall_forall in Hvals. destruct (Hvals _ Hkv) as [G Hv].
  exists v. auto.
Qed.

(** [kdcalc(90)] on [steep_chunk]: the multiplier is [1 - cos(90)], about
    1.448, with 90 taken as radians, and the value stored is
    [round(100 * 1.448)]; a right angle, [1 - cos(pi/2)], would give 100. *)
Lemma kdcalc_at_90 :
  kdcalc cos_series 10 steep_chunk 90 = Returns steep_chunk_solved
  /\ KD_required steep_chunk_solved = [(0.1%float, 145)]
  /\ py_round (100 * (1 - cos_series 90))%float = Ok 145.
Proof. split; [|split]; vm_compute; reflexivity. Qed.

(** C3.  The angle multiplier is [1 - cos(shell_angle)], the cosine taken
    at the number supplied.  When [kdcalc] returns, for every value of
    [shell_ap] its loop went through (the values [ap_iter j] within
    [max_ap]), the value [KD_required] holds at that [shell_ap] is the
    result of adding, layer by layer over the layers except the last,
    [hp * (ac / shell_ap) * (1 - cos shell_angle)] and rounding.  And
    whatever [kdcalc] does, it depends on the cosine function through its
    value at [shell_angle] alone: no other angle, such as one converted
    from degrees, is ever used, by [kdcalc] or by the driver's
    [armorcalc()], [kdcalc(shell_angle)], [print_chunk()]. *)
Theorem kdcalc_angle_as_radians (cos : float -> float) (fuel : nat) (c : ArmorChunk)
        (shell_angle : float) :
  (forall c' : ArmorChunk,
      kdcalc cos fuel c shell_angle = Returns c' ->
      exists (max_ap : float) (n : nat),
        py_max (map ac (non_last (layers c))) = Ok max_ap
        /\ (forall j : nat, (j < n)%nat ->
              (ap_iter j <=? max_ap)%float = true
              /\ exists v : Z,
                   fold_res (fun (sum : Z) (l : Layer) =>
                               previous <- int_to_float sum ;;
                               py_round (previous
                                         + hp l * (ac l / ap_iter j)
                                           * (1 - cos shell_angle))%float)
                            (non_last (layers c)) 0 = Ok v
                   /\ dict_get (KD_required c') (ap_iter j) = Some v)
        /\ (ap_iter n <=? max_ap)%float = false)
  /\ (forall cos2 : float -> float,
         cos2 shell_angle = cos shell_angle ->
         kdcalc cos2 fuel c shell_angle = kdcalc cos fuel c shell_angle
         /\ run_chunk cos2 fuel c shell_angle = run_chunk cos fuel c shell_angle).
Proof.
  split.
  2:{ intros cos2 Hcos. split; [now apply kdcalc_cos_ext|].
      unfold run_chunk. destruct (armorcalc c) as [c1|e c1|]; [|reflexivity..].
      now rewrite (kdcalc_cos_ext cos2 cos fuel c1 shell_angle Hcos). }
  intros c' Hret.
  destruct (py_max (map ac (non_last (layers c)))) as [max_ap|e] eqn:Hmax.
  2:{ rewrite kdcalc_unfold, Hmax in Hret. discriminate. }
  pose proof (py_max_non_last _ _ Hmax) as Hne.
  pose proof (kdcalc_run cos fuel c shell_angle max_ap Hmax) as H.
  rewrite Hret in H. destruct H as (ws & Hrun & _ & ->).
  exists max_ap, (length ws). split; [reflexivity|]. split.
  - intros j Hj.
    destruct (ap_run_entry cos _ _ _ _ _ j Hrun Hj) as (v & Hin & G & Hv).
    split; [exact G|]. exists v. split.
    + now apply rounded_hp_multiplier.
    + simpl. apply (dict_update_get ws (KD_required c) (ap_iter j, v)); [|exact Hin].
      exact (ap_run_functional _ _ _ _ _ _ _ Hne Hrun).
  - apply (ap_run_end _ _ _ _ _ _ Hrun).
Qed.

(** C3 at the angle 90 on [steep_chunk]: the value stored at 0.1 is the
    one computed with [1 - cos 90], and a cosine that is right at 90 only
    gives the same result. *)
Lemma kdcalc_angle_as_radians_witness :
  (exists (max_ap : float) (n : nat),
      py_max (map ac (non_last (layers steep_chunk))) = Ok max_ap
      /\ (forall j : nat, (j < n)%nat ->
            (ap_iter j <=? max_ap)%float = true
            /\ exists v : Z,
                 fold_res (fun (sum : Z) (l : Layer) =>
                             previous <- int_to_float sum ;;
                             py_round (previous
                                       + hp l * (ac l / ap_iter j)
                                         * (1 - cos_series 90))%float)
                          (non_last (layers steep_chunk)) 0 = Ok v
                 /\ dict_get (KD_required steep_chunk_solved) (ap_iter j) = Some v)
      /\ (ap_iter n <=? max_ap)%float = false)
  /\ kdcalc cos_at_90 10 steep_chunk 90 = kdcalc cos_series 10 steep_chunk 90
  /\ run_chunk cos_at_90 10 steep_chunk 90 = run_chunk cos_series 10 steep_chunk 90.
Proof.
  split.
  - apply (proj1 (kdcalc_angle_as_radians cos_series 10 steep_chunk 90) steep_chunk_solved).
    vm_compute. reflexivity.
  - apply (proj2 (kdcalc_angle_as_radians cos_series 10 steep_chunk 90) cos_at_90).
    vm_compute. reflexivity.
Defined.

(** C4.  When [kdcalc] returns, for every value of [shell_ap] its loop
    went through (the values [ap_iter j] within [max_ap]), the inner loop
    is the fold over the layers except the last whose step is
    [round(previous_rounded_sum + this_layer_contribution)], the sum being
    rounded after every layer, and the result of that fold is the value
    [KD_required] holds at that [shell_ap]. *)
Theorem kdcalc_rounds_after_every_layer (cos : float -> float) (fuel : nat)
        (c : ArmorChunk) (shell_angle : float) (c' : ArmorChunk) :
  kdcalc cos fuel c shell_angle = Returns c' ->
  exists (max_ap : float) (n : nat),
    py_max (map ac (non_last (layers c))) = Ok max_ap
    /\ (forall j : nat, (j < n)%nat ->
          (ap_iter j <=? max_ap)%float = true
          /\ exists v : Z,
               rounded_hp cos (layers c) shell_angle (ap_iter j) = Ok v
               /\ chunk_effective_hp cos (layers c) shell_angle (ap_iter j) = Returns v
               /\ dict_get (KD_required c') (ap_iter j) = Some v)
    /\ (ap_iter n <=? max_ap)%float = false.
Proof.
  intros Hret.
  destruct (py_max (map ac (non_last (layers c)))) as [max_ap|e] eqn:Hmax.
  2:{ rewrite kdcalc_unfold, Hmax in Hret. discriminate. }
  pose proof (kdcalc_run cos fuel c shell_angle max_ap Hmax) as H.
  rewrite Hret in H. destruct H as (ws & Hrun & _ & ->).
  exists max_ap, (length ws). split; [reflexivity|]. split.
  - intros j Hj.
    pose proof (ap_run_keys _ _ _ _ _ _ _ Hrun) as Hkeys.
    pose proof (ap_run_values _ _ _ _ _ _ _ Hrun) as Hvals.
    pose proof (ap_run_functional _ _ _ _ _ _ _ (py_max_non_last _ _ Hmax) Hrun) as Hf.
    destruct (nth_error ws j) as [kv|] eqn:Hkv.
    2:{ apply nth_error_None in Hkv. lia. }
    assert (Hk : fst kv = ap_iter j).
    { apply (map_nth_error fst) in Hkv. rewrite Hkeys in Hkv.
      rewrite nth_error_map, nth_error_seq in Hkv.
      destruct (j <? length ws)%nat eqn:E; [|apply Nat.ltb_ge in E; lia].
      simpl in Hkv. now injection Hkv as <-. }
    apply nth_error_In in Hkv.
    rewrite List.Forall_forall in Hvals. destruct (Hvals kv Hkv) as [G Hv].
    rewrite Hk in G, Hv. split; [exact G|]. exists (snd kv). split; [exact Hv|]. split.
    + pose proof (chunk_effective_hp_rounded cos (layers c) shell_angle (ap_iter j)) as Hc.
      destruct (chunk_effective_hp _ _ _ _); [congruence | congruence | destruct Hc].
    + simpl. rewrite <- Hk. now apply dict_update_get.
  - apply (ap_run_end _ _ _ _ _ _ Hrun).
Qed.

(** C10.  [kdcalc] is idempotent: when a call returns, a second call with
    the same angle returns the chunk the first call left, with the same
    [KD_required], key for key and value for value. *)
Theorem kdcalc_idempotent (cos : float -> float) (fuel : nat) (c : ArmorChunk)
        (shell_angle : float) (c1 : ArmorChunk) :
  kdcalc cos fuel c shell_angle = Returns c1 ->
  kdcalc cos fuel c1 shell_angle = Returns c1.
Proof.
  intros Hret.
  destruct (py_max (map ac (non_last (layers c)))) as [max_ap|e] eqn:Hmax.
  2:{ rewrite kdcalc_unfold, Hmax in Hret. discriminate. }
  pose proof (kdcalc_run cos fuel c shell_angle max_ap Hmax) as H.
  rewrite Hret in H. destruct H as (ws & Hrun & Hlen & ->).
  rewrite kdcalc_unfold. simpl. rewrite Hmax.
  rewrite (ap_run_kdcalc_while cos _ _ _ _ _ _ Hrun) by lia.
  simpl. unfold with_KD. simpl. f_equal. f_equal.
  apply dict_update_idempotent.
  exact (ap_run_functional _ _ _ _ _ _ _ (py_max_non_last _ _ Hmax) Hrun).
Qed.

(** C9, as stated, fails: on [overflow_chunk], of two layers, [kdcalc]
    raises at the first value of [shell_ap], where the layer's effective
    hit points are not a finite float. *)
Lemma kdcalc_raises_on_overflow :
  length (layers overflow_chunk) = 2%nat
  /\ kdcalc cos_series 1 overflow_chunk 0 = Raises ValueError_nan_to_int overflow_chunk.
Proof. split; reflexivity. Qed.

(** C9, amended.  On a chunk of at least two layers [max] has an
    argument that is not empty, and [kdcalc] raises neither the
    [ValueError] of [max] nor an [IndexError], for any angle; when the
    maximum [ac] of the layers except the last is less than 0.1 the loop
    body runs zero times and [kdcalc] returns the chunk as it was; and when
    that maximum is at most [max_ap_bound] the loop ends within [ap_last]
    runs of its body.  (An exception can still come from the arithmetic of
    the loop body.) *)
Theorem kdcalc_two_layers (cos : float -> float) (c : ArmorChunk) (fuel : nat)
        (shell_angle : float) :
  (2 <= length (layers c))%nat ->
  exists max_ap : float,
    py_max (map ac (non_last (layers c))) = Ok max_ap
    /\ (forall (e : exn) (c' : ArmorChunk),
          kdcalc cos fuel c shell_angle = Raises e c' ->
          e <> ValueError_max_empty /\ e <> IndexError)
    /\ ((max_ap <? 0.1)%float = true -> kdcalc cos fuel c shell_angle = Returns c)
    /\ ((max_ap <=? max_ap_bound)%float = true -> (ap_last <= fuel)%nat ->
        kdcalc cos fuel c shell_angle <> OutOfFuel).
Proof.
  intros Hlen. destruct (py_max_two_layers _ Hlen) as (max_ap & Hmax).
  exists max_ap. split; [exact Hmax|]. split; [|split].
  - intros e c' Hraise.
    pose proof (kdcalc_run cos fuel c shell_angle max_ap Hmax) as H.
    rewrite Hraise in H. destruct H as (ws & Hrun & _).
    apply ap_run_exn in Hrun. tauto.
  - intros Hlt. rewrite kdcalc_unfold, Hmax.
    apply FloatOrderFacts.ltb_not_leb in Hlt.
    destruct fuel; simpl; rewrite Hlt; simpl; now rewrite with_KD_id.
  - intros Hb Hfuel. rewrite kdcalc_unfold, Hmax.
    pose proof (kdcalc_while_ends cos (layers c) max_ap shell_angle Hb ap_last 0 fuel
                  (KD_required c) eq_refl Hfuel) as H.
    change (ap_iter 0) with 0.1%float in H.
    destruct (kdcalc_while _ _ _ _ _ _ _); simpl; [discriminate | discriminate | contradiction].
Qed.

Lemma kdcalc_two_layers_witness :
  exists max_ap : float,
    py_max (map ac (non_last (layers (chunk_of [AIR; METAL])))) = Ok max_ap
    /\ (forall (e : exn) (c' : ArmorChunk),
          kdcalc cos_series 0 (chunk_of [AIR; METAL]) 90 = Raises e c' ->
          e <> ValueError_max_empty /\ e <> IndexError)
    /\ ((max_ap <? 0.1)%float = true ->
        kdcalc cos_series 0 (chunk_of [AIR; METAL]) 90 = Returns (chunk_of [AIR; METAL]))
    /\ ((max_ap <=? max_ap_bound)%float = true -> (ap_last <= 0)%nat ->
        kdcalc cos_series 0 (chunk_of [AIR; METAL]) 90 <> OutOfFuel).
Proof.
  apply (kdcalc_two_layers cos_series (chunk_of [AIR; METAL]) 0 90). simpl. lia.
Defined.

Lemma kdcalc_rounds_after_every_layer_witness :
  exists (max_ap : float) (n : nat),
    py_max (map ac (non_last (layers half_chunk))) = Ok max_ap
    /\ (forall j : nat, (j < n)%nat ->
          (ap_iter j <=? max_ap)%float = true
          /\ exists v : Z,
               rounded_hp cos_series (layers half_chunk) 1 (ap_iter j) = Ok v
               /\ chunk_effective_hp cos_series (layers half_chunk) 1 (ap_iter j) = Returns v
               /\ dict_get (KD_required half_chunk_solved) (ap_iter j) = Some v)
    /\ (ap_iter n <=? max_ap)%float = false.
Proof.
  apply (kdcalc_rounds_after_every_layer cos_series 10 half_chunk 1 half_chunk_solved).
  vm_compute. reflexivity.
Defined.

Lemma kdcalc_idempotent_witness :
  kdcalc cos_series 10 half_chunk_solved 1 = Returns half_chunk_solved.
Proof.
  apply (kdcalc_idempotent cos_series 10 half_chunk 1 half_chunk_solved).
  vm_compute. reflexivity.
Defined.

(** Rounding after every layer is not rounding once: on three layers that
    each add about 2.3, the running sum goes 2, 4, 6, and the sum rounded
    once is 7. *)
Lemma rounding_after_every_layer_differs :
  rounded_hp cos_series (layers half_chunk) 1 0.1 = Ok 6
  /\ hp_rounded_once cos_series (layers half_chunk) 1 0.1 = Ok 7.
Proof. split; vm_compute; reflexivity. Qed.

(** C2, as stated, fails.  On air over metal [max_ap] is 0 and
    [KD_required] stays empty: there is no key 0.1.  On [quarter_chunk]
    [max_ap] is 0.25 and the keys are 0.1 and 0.2: the last key is below
    [max_ap], and 0.3, the first value that reaches it, is not a key. *)
Lemma kdcalc_keys_end_below_max_ap :
  py_max (map ac (non_last (layers (chunk_of [AIR; METAL])))) = Ok 0%float
  /\ kdcalc cos_series 10 (chunk_of [AIR; METAL]) 0 = Returns (chunk_of [AIR; METAL])
  /\ KD_required (chunk_of [AIR; METAL]) = []
  /\ py_max (map ac (non_last (layers quarter_chunk))) = Ok 0.25%float
  /\ kdcalc cos_series 10 quarter_chunk 0 = Returns quarter_chunk_solved
  /\ dict_keys (KD_required quarter_chunk_solved) = [0.1%float; 0.2%float]
  /\ (0.2 <? 0.25)%float = true
  /\ (0.25 <=? 0.3)%float = true.
Proof. repeat split; vm_compute; reflexivity. Qed.

(** C2, amended.  When [kdcalc] returns, [max_ap] is the maximum [ac] of
    the layers except the last: an [ac] of one of them that none of them
    exceeds.  If [KD_required] was empty before and [max_ap] is at most
    [max_ap_bound], the keys of [KD_required] are, in order, the floats
    nearest to 0.1, 0.2, ..., n/10: strictly ascending, all at most
    [max_ap], with the next value (n+1)/10 not at most [max_ap].  The
    sequence ends at the last value that does not exceed [max_ap], and is
    empty when [max_ap] is below 0.1. *)
Theorem kdcalc_keys (cos : float -> float) (fuel : nat) (c : ArmorChunk)
        (shell_angle : float) (c' : ArmorChunk) :
  kdcalc cos fuel c shell_angle = Returns c' ->
  exists max_ap : float,
    py_max (map ac (non_last (layers c))) = Ok max_ap
    /\ In max_ap (map ac (non_last (layers c)))
    /\ Forall (fun a => (max_ap <? a)%float = false) (map ac (non_last (layers c)))
    /\ ((max_ap <=? max_ap_bound)%float = true -> KD_required c = [] ->
        exists n : nat,
          dict_keys (KD_required c') = map ap_value (seq 1 n)
          /\ StronglySorted (fun a b => (a <? b)%float = true) (dict_keys (KD_required c'))
          /\ Forall (fun k => (k <=? max_ap)%float = true) (dict_keys (KD_required c'))
          /\ (ap_value (S n) <=? max_ap)%float = false).
Proof.
  intros Hret.
  destruct (py_max (map ac (non_last (layers c)))) as [max_ap|e] eqn:Hmax.
  2:{ rewrite kdcalc_unfold, Hmax in Hret. discriminate. }
  exists max_ap. split; [reflexivity|].
  destruct (py_max_spec _ _ Hmax) as [Hin Hle]. split; [exact Hin|]. split; [exact Hle|].
  intros Hb Hempty.
  pose proof (kdcalc_run cos fuel c shell_angle max_ap Hmax) as H.
  rewrite Hret in H. destruct H as (ws & Hrun & _ & ->). simpl. rewrite Hempty.
  pose proof (ap_run_bounded cos _ _ _ _ _ _ Hb Hrun 0%nat eq_refl (Nat.le_0_l _)) as Hn.
  simpl in Hn.
  assert (Hkeys : map fst ws = map ap_value (seq 1 (length ws))).
  { rewrite (ap_run_keys _ _ _ _ _ _ _ Hrun), <- seq_shift, map_map.
    apply map_ext_in. intros j Hj. apply in_seq in Hj.
    apply (ap_iter_value j). lia. }
  assert (Hsorted : StronglySorted (fun a b => (a <? b)%float = true) (map fst ws)).
  { rewrite Hkeys. apply ap_value_sorted. lia. }
  assert (Hdict : dict_keys (dict_update [] ws) = map fst ws).
  { rewrite dict_update_keys_fresh; [reflexivity|]. simpl.
    eapply StronglySorted_impl; [|exact Hsorted].
    intros a b. apply FloatOrderFacts.ltb_not_eqb. }
  exists (length ws). rewrite Hdict. split; [exact Hkeys|]. split; [exact Hsorted|]. split.
  - apply ap_run_values in Hrun. apply List.Forall_forall. intros k Hk.
    apply in_map_iff in Hk as (kv & <- & Hkv).
    rewrite List.Forall_forall in Hrun. now apply Hrun.
  - rewrite <- ap_iter_value by lia. apply (ap_run_end _ _ _ _ _ _ Hrun).
Qed.

Lemma kdcalc_keys_witness :
  exists max_ap : float,
    py_max (map ac (non_last (layers quarter_chunk))) = Ok max_ap
    /\ In max_ap (map ac (non_last (layers quarter_chunk)))
    /\ Forall (fun a => (max_ap <? a)%float = false) (map ac (non_last (layers quarter_chunk)))
    /\ ((max_ap <=? max_ap_bound)%float = true -> KD_required quarter_chunk = [] ->
        exists n : nat,
          dict_keys (KD_required quarter_chunk_solved) = map ap_value (seq 1 n)
          /\ StronglySorted (fun a b => (a <? b)%float = true)
                            (dict_keys (KD_required quarter_chunk_solved))
          /\ Forall (fun k => (k <=? max_ap)%float = true)
                    (dict_keys (KD_required quarter_chunk_solved))
          /\ (ap_value (S n) <=? max_ap)%float = false).
Proof.
  apply (kdcalc_keys cos_series 10 quarter_chunk 0 quarter_chunk_solved).
  vm_compute. reflexivity.
Defined.

(* ================================================================== *)
(** * Further properties of the chunk, the two passes and the driver *)

(* ================================================================== *)
(** * Building a chunk *)

Lemma add_material_KD (c : ArmorChunk) (m : material) :
  KD_required (add_material c m) = KD_required c.
Proof. now destruct m. Qed.

Lemma chunk_of_KD (ms : list material) : KD_required (chunk_of ms) = [].
Proof.
  unfold chunk_of.
  assert (H : forall c, KD_required (fold_left add_material ms c) = KD_required c).
  { induction ms as [|m ms IH]; intros c; simpl; [reflexivity|].
    now rewrite IH, add_material_KD. }
  apply H.
Qed.

(** X1.  The chunk the driver builds by calling [add_layer] once per
    layer holds one layer per material, in the order given, each with the
    statistics of the material table, and an empty [KD_required]. *)
Theorem chunk_of_builds_layers (ms : list material) :
  layers (chunk_of ms) = map material_layer ms
  /\ length (layers (chunk_of ms)) = length ms
  /\ KD_required (chunk_of ms) = [].
Proof.
  split; [apply chunk_of_layers|]. split.
  - now rewrite chunk_of_layers, length_map.
  - apply chunk_of_KD.
Qed.

(* ================================================================== *)
(** * [armorcalc] without layering *)

Lemma effective_ac_without_pair (ls : list Layer) :
  (forall (i : nat) (current next : Layer),
      ls !! i = Some current -> ls !! S i = Some next ->
      is_structural current && is_structural next = false) ->
  effective_ac ls = ls.
Proof.
  intros H. apply list_eq. intros i. rewrite effective_ac_lookup.
  destruct (ls !! i) as [current|] eqn:Hi; [|reflexivity].
  destruct (ls !! S i) as [next|] eqn:Hn; [|reflexivity].
  unfold boost. now rewrite (H i current next Hi Hn).
Qed.

(** X2.  When no two adjacent layers are both structural (every
    structural layer is next to air only), [armorcalc] returns the chunk
    as it was. *)
Theorem armorcalc_without_structural_pair (c : ArmorChunk) :
  (forall (i : nat) (current next : Layer),
      layers c !! i = Some current -> layers c !! S i = Some next ->
      is_structural current && is_structural next = false) ->
  armorcalc c = Returns c.
Proof.
  intros H. rewrite armorcalc_returns, (effective_ac_without_pair _ H).
  now rewrite with_layers_id.
Qed.

Lemma armorcalc_without_structural_pair_witness :
  armorcalc (chunk_of [METAL; AIR; HA]) = Returns (chunk_of [METAL; AIR; HA]).
Proof.
  apply (armorcalc_without_structural_pair (chunk_of [METAL; AIR; HA])).
  intros [|[|[|i]]] current next Hi Hn; simpl in Hi, Hn; try discriminate;
    injection Hi as <-; injection Hn as <-; reflexivity.
Defined.

(* ================================================================== *)
(** * [kdcalc] and the last layer *)

Lemma non_last_snoc (pre : list Layer) (l : Layer) : non_last (pre ++ [l]) = pre.
Proof. unfold non_last. apply removelast_last. Qed.

Lemma kdcalc_while_non_last (cos : float -> float) (ls ls' : list Layer)
      (max_ap shell_angle : float) :
  non_last ls = non_last ls' ->
  forall (fuel : nat) (shell_ap : float) (KD : dict),
    kdcalc_while cos fuel ls max_ap shell_angle shell_ap KD
    = kdcalc_while cos fuel ls' max_ap shell_angle shell_ap KD.
Proof.
  intros Hnl. induction fuel as [|fuel IH]; intros shell_ap KD; simpl; [reflexivity|].
  destruct (shell_ap <=? max_ap)%float; [|reflexivity].
  pose proof (chunk_effective_hp_rounded cos ls shell_angle shell_ap) as H.
  pose proof (chunk_effective_hp_rounded cos ls' shell_angle shell_ap) as H'.
  unfold rounded_hp in H, H'. rewrite Hnl in H.
  destruct (chunk_effective_hp cos ls shell_angle shell_ap) as [v|e v|];
    destruct (chunk_effective_hp cos ls' shell_angle shell_ap) as [v'|e' v'|];
    try contradiction; try congruence.
  all: rewrite H in H'; injection H' as <-; apply IH.
Qed.

(** X3.  [kdcalc] never reads the last layer: two chunks with the same
    [KD_required] whose layers differ in the last layer only get the same
    outcome and the same [KD_required]. *)
Theorem kdcalc_ignores_last_layer (cos : float -> float) (fuel : nat)
        (c1 c2 : ArmorChunk) (pre : list Layer) (l1 l2 : Layer) (shell_angle : float) :
  layers c1 = pre ++ [l1] -> layers c2 = pre ++ [l2] ->
  KD_required c1 = KD_required c2 ->
  outcome_map KD_required (kdcalc cos fuel c1 shell_angle)
  = outcome_map KD_required (kdcalc cos fuel c2 shell_angle).
Proof.
  intros H1 H2 HKD. rewrite !kdcalc_unfold, H1, H2, !non_last_snoc.
  destruct (py_max (map ac pre)) as [max_ap|e]; simpl; [|now rewrite HKD].
  rewrite HKD.
  rewrite (kdcalc_while_non_last cos (pre ++ [l1]) (pre ++ [l2]))
    by now rewrite !non_last_snoc.
  now destruct (kdcalc_while _ _ _ _ _ _ _).
Qed.

Lemma kdcalc_ignores_last_layer_witness :
  outcome_map KD_required (kdcalc cos_series 100 (chunk_of [WOOD; AIR]) 1)
  = outcome_map KD_required (kdcalc cos_series 100 (chunk_of [WOOD; HA]) 1).
Proof.
  apply (kdcalc_ignores_last_layer cos_series 100 (chunk_of [WOOD; AIR]) (chunk_of [WOOD; HA])
           [material_layer WOOD] (material_layer AIR) (material_layer HA) 1);
    reflexivity.
Defined.

(* ================================================================== *)
(** * A call that raises *)

(** X4.  When [kdcalc] raises, a second call with the same angle raises
    the same exception and leaves the chunk as the first call left it. *)
Theorem kdcalc_raise_repeatable (cos : float -> float) (fuel : nat) (c : ArmorChunk)
        (shell_angle : float) (e : exn) (c1 : ArmorChunk) :
  kdcalc cos fuel c shell_angle = Raises e c1 ->
  kdcalc cos fuel c1 shell_angle = Raises e c1.
Proof.
  intros Hr.
  destruct (py_max (map ac (non_last (layers c)))) as [max_ap|e'] eqn:Hmax.
  2:{ rewrite kdcalc_unfold, Hmax in Hr. injection Hr as <- <-.
      now rewrite kdcalc_unfold, Hmax. }
  pose proof (kdcalc_run cos fuel c shell_angle max_ap Hmax) as H.
  rewrite Hr in H. destruct H as (ws & Hrun & Hlen & ->).
  rewrite kdcalc_unfold. simpl. rewrite Hmax.
  rewrite (ap_run_kdcalc_while cos _ _ _ _ _ _ Hrun) by lia.
  simpl. unfold with_KD. simpl. f_equal. f_equal.
  apply dict_update_idempotent.
  exact (ap_run_functional _ _ _ _ _ _ _ (py_max_non_last _ _ Hmax) Hrun).
Qed.

Lemma kdcalc_raise_repeatable_witness :
  kdcalc cos_series 1 overflow_chunk 0 = Raises ValueError_nan_to_int overflow_chunk.
Proof.
  apply (kdcalc_raise_repeatable cos_series 1 overflow_chunk 0 ValueError_nan_to_int
           overflow_chunk).
  vm_compute. reflexivity.
Defined.

(* ================================================================== *)
(** * [KD_required] as a dictionary *)

Lemma StronglySorted_snoc {A : Type} (R : A -> A -> Prop) (l : list A) (x : A) :
  StronglySorted R l -> Forall (fun a => R a x) l -> StronglySorted R (l ++ [x]).
Proof.
  induction 1 as [|a l Hs IH Hf]; intros Hx; simpl.
  - repeat constructor.
  - apply Forall_cons in Hx as [Hax Hx]. constructor; [auto|].
    apply Forall_app. split; [exact Hf | now constructor].
Qed.

Lemma dict_set_keys_cases (d : dict) (k : float) (v : Z) :
  dict_keys (dict_set d k v) = dict_keys d
  \/ (Forall (fun k' => (k' =? k)%float = false) (dict_keys d)
      /\ dict_keys (dict_set d k v) = dict_keys d ++ [k]).
Proof.
  unfold dict_keys. induction d as [|[k' v'] d IH]; simpl.
  - right. split; [constructor | reflexivity].
  - destruct (k' =? k)%float eqn:E; simpl; [now left|].
    destruct IH as [-> | [Hf ->]]; [now left|].
    right. split; [now constructor | reflexivity].
Qed.

Lemma dict_set_wf (d : dict) (k : float) (v : Z) :
  (k =? k)%float = true -> dict_wf d -> dict_wf (dict_set d k v).
Proof.
  intros Hk [Hrefl Hsorted]. unfold dict_wf.
  destruct (dict_set_keys_cases d k v) as [-> | [Hf ->]]; [now split|].
  split.
  - apply Forall_app. split; [exact Hrefl | now constructor].
  - now apply StronglySorted_snoc.
Qed.

Lemma dict_update_wf (ws : list (float * Z)) (d : dict) :
  Forall (fun kv => (fst kv =? fst kv)%float = true) ws ->
  dict_wf d -> dict_wf (dict_update d ws).
Proof.
  revert d. induction ws as [|w ws IH]; intros d Hws Hd; [exact Hd|].
  apply Forall_cons in Hws as [Hw Hws]. rewrite dict_update_cons.
  apply IH; [exact Hws|]. now apply dict_set_wf.
Qed.

Lemma ap_run_keys_not_nan (cos : float -> float) (ls : list Layer)
      (max_ap shell_angle shell_ap : float) (ws : list (float * Z)) (fin : option exn) :
  ap_run cos ls max_ap shell_angle shell_ap ws fin ->
  Forall (fun kv => (fst kv =? fst kv)%float = true) ws.
Proof.
  intros Hrun. apply ap_run_values in Hrun.
  eapply Forall_impl; [exact Hrun|]. intros kv [G _].
  now apply FloatOrderFacts.leb_eqb_refl in G.
Qed.

(** X5.  [kdcalc] keeps [KD_required] a dictionary: if no key was a NaN
    and no two keys were equal before the call, the same holds after it,
    whether the call returns or raises. *)
Theorem kdcalc_keeps_dict_wf (cos : float -> float) (fuel : nat) (c : ArmorChunk)
        (shell_angle : float) :
  dict_wf (KD_required c) ->
  match kdcalc cos fuel c shell_angle with
  | Returns c' | Raises _ c' => dict_wf (KD_required c')
  | OutOfFuel => True
  end.
Proof.
  intros Hwf.
  destruct (py_max (map ac (non_last (layers c)))) as [max_ap|e] eqn:Hmax.
  2:{ now rewrite kdcalc_unfold, Hmax. }
  pose proof (kdcalc_run cos fuel c shell_angle max_ap Hmax) as H.
  destruct (kdcalc cos fuel c shell_angle) as [c'|e c'|]; [| |exact I];
    destruct H as (ws & Hrun & _ & ->); simpl;
    apply dict_update_wf; eauto using ap_run_keys_not_nan.
Qed.

Lemma dict_wf_nil : dict_wf [].
Proof. split; constructor. Qed.

Lemma kdcalc_keeps_dict_wf_witness :
  match kdcalc cos_series 10 half_chunk 1 with
  | Returns c' | Raises _ c' => dict_wf (KD_required c')
  | OutOfFuel => True
  end.
Proof. apply (kdcalc_keeps_dict_wf cos_series 10 half_chunk 1). exact dict_wf_nil. Defined.

(* ================================================================== *)
(** * [print_chunk] *)

Lemma dict_get_wf (d : dict) (k : float) (v : Z) :
  dict_wf d -> In (k, v) d -> dict_get d k = Some v.
Proof.
  unfold dict_wf, dict_keys. induction d as [|[k0 v0] d IH]; simpl; [intros _ []|].
  intros [Hrefl Hsorted] Hin.
  apply Forall_cons in Hrefl as [H0 Hrefl].
  apply StronglySorted_inv in Hsorted as [Hsorted Hfresh].
  destruct Hin as [[= -> ->] | Hin].
  - now rewrite H0.
  - rewrite List.Forall_forall in Hfresh.
    rewrite (Hfresh k) by (apply in_map_iff; exists (k, v); auto).
    apply IH; auto.
Qed.

Lemma print_lines_entries (d : dict) (l lines : list (float * Z)) :
  dict_wf d -> incl l d -> print_lines d (map fst l) lines = Printed (lines ++ l).
Proof.
  intros Hwf. revert lines. induction l as [|[k v] l IH]; intros lines Hincl; simpl.
  - now rewrite app_nil_r.
  - rewrite (dict_get_wf d k v Hwf) by (apply Hincl; now left).
    rewrite IH by (intros x Hx; apply Hincl; now right).
    now rewrite <- app_assoc.
Qed.

(** X6.  On a dictionary in which no key is a NaN and no two keys are
    equal, [print_chunk] ends without a [KeyError] and prints the entries
    of [KD_required], each key with its value, in the order of
    insertion. *)
Theorem print_chunk_prints_entries (c : ArmorChunk) :
  dict_wf (KD_required c) -> print_chunk c = Printed (KD_required c).
Proof.
  intros Hwf. unfold print_chunk, dict_keys.
  now rewrite (print_lines_entries _ (KD_required c) []) by (auto using incl_refl).
Qed.

Lemma print_chunk_prints_entries_witness :
  print_chunk half_chunk_solved = Printed (KD_required half_chunk_solved).
Proof.
  apply (print_chunk_prints_entries half_chunk_solved).
  split; vm_compute; repeat constructor.
Defined.

(** X7.  [kdcalc] never removes a key of [KD_required] and never moves
    one: the keys before the call are a prefix of the keys after it,
    whether the call returns or raises. *)
Theorem kdcalc_keys_only_grow (cos : float -> float) (fuel : nat) (c : ArmorChunk)
        (shell_angle : float) :
  match kdcalc cos fuel c shell_angle with
  | Returns c' | Raises _ c' =>
      exists new_keys : list float,
        dict_keys (KD_required c') = dict_keys (KD_required c) ++ new_keys
  | OutOfFuel => True
  end.
Proof.
  assert (Hup : forall ws d, exists new_keys,
               dict_keys (dict_update d ws) = dict_keys d ++ new_keys).
  { induction ws as [|w ws IH]; intros d.
    - exists []. now rewrite app_nil_r.
    - rewrite dict_update_cons.
      destruct (IH (dict_set d (fst w) (snd w))) as (nk & ->).
      destruct (dict_set_keys_prefix d (fst w) (snd w)) as [-> | ->]; [eauto|].
      exists (fst w :: nk). now rewrite <- app_assoc. }
  destruct (py_max (map ac (non_last (layers c)))) as [max_ap|e] eqn:Hmax.
  2:{ rewrite kdcalc_unfold, Hmax. exists []. now rewrite app_nil_r. }
  pose proof (kdcalc_run cos fuel c shell_angle max_ap Hmax) as H.
  destruct (kdcalc cos fuel c shell_angle) as [c'|e c'|]; [| |exact I];
    destruct H as (ws & _ & _ & ->); simpl; apply Hup.
Qed.

(* ================================================================== *)
(** * The keys depend on the armor classes alone *)

Lemma ap_run_same_keys (cos1 cos2 : float -> float) (ls1 ls2 : list Layer)
      (max_ap angle1 angle2 s : float) (ws1 : list (float * Z)) :
  ap_run cos1 ls1 max_ap angle1 s ws1 None ->
  forall ws2, ap_run cos2 ls2 max_ap angle2 s ws2 None -> map fst ws1 = map fst ws2.
Proof.
  intros H. remember None as fin eqn:E.
  induction H as [s G | s e G Hv | s v ws fin G Hv Hrun IH]; intros ws2 H2.
  - inversion H2; subst; try congruence; reflexivity.
  - discriminate.
  - inversion H2; subst; try congruence. simpl. f_equal. now apply IH.
Qed.

Lemma dict_set_keys_congr (d1 d2 : dict) (k : float) (v1 v2 : Z) :
  dict_keys d1 = dict_keys d2 ->
  dict_keys (dict_set d1 k v1) = dict_keys (dict_set d2 k v2).
Proof.
  unfold dict_keys. revert d2. induction d1 as [|[k1 w1] d1 IH]; intros [|[k2 w2] d2];
    simpl; try discriminate; [reflexivity|].
  intros [= -> H]. destruct (k2 =? k)%float; simpl; [now rewrite H|].
  f_equal. now apply IH.
Qed.

Lemma dict_update_keys_congr (ws1 ws2 : list (float * Z)) (d1 d2 : dict) :
  map fst ws1 = map fst ws2 -> dict_keys d1 = dict_keys d2 ->
  dict_keys (dict_update d1 ws1) = dict_keys (dict_update d2 ws2).
Proof.
  revert ws2 d1 d2. induction ws1 as [|w1 ws1 IH]; intros [|w2 ws2] d1 d2;
    simpl; try discriminate; [auto|].
  intros [= Hk Hws] Hd. apply IH; [exact Hws|]. rewrite Hk.
  now apply dict_set_keys_congr.
Qed.

(** X8.  The keys [kdcalc] leaves depend on the armor classes alone:
    two calls that return, on chunks with the same maximum [ac] among the
    layers except the last and the same keys before, leave the same keys,
    whatever the hit points, the angles and the cosines. *)
Theorem kdcalc_keys_depend_on_max_ap (cos1 cos2 : float -> float) (fuel1 fuel2 : nat)
        (c1 c2 : ArmorChunk) (angle1 angle2 : float) (c1' c2' : ArmorChunk) :
  py_max (map ac (non_last (layers c1))) = py_max (map ac (non_last (layers c2))) ->
  dict_keys (KD_required c1) = dict_keys (KD_required c2) ->
  kdcalc cos1 fuel1 c1 angle1 = Returns c1' ->
  kdcalc cos2 fuel2 c2 angle2 = Returns c2' ->
  dict_keys (KD_required c1') = dict_keys (KD_required c2').
Proof.
  intros Hmax Hkeys H1 H2.
  destruct (py_max (map ac (non_last (layers c2)))) as [max_ap|e] eqn:Hmax2.
  2:{ rewrite kdcalc_unfold, Hmax2 in H2. discriminate. }
  pose proof (kdcalc_run cos1 fuel1 c1 angle1 max_ap Hmax) as R1.
  pose proof (kdcalc_run cos2 fuel2 c2 angle2 max_ap Hmax2) as R2.
  rewrite H1 in R1. rewrite H2 in R2.
  destruct R1 as (ws1 & Hrun1 & _ & ->), R2 as (ws2 & Hrun2 & _ & ->). simpl.
  apply dict_update_keys_congr; [|exact Hkeys].
  exact (ap_run_same_keys _ _ _ _ _ _ _ _ _ Hrun1 _ Hrun2).
Qed.

Lemma kdcalc_keys_depend_on_max_ap_witness :
  dict_keys (KD_required half_chunk_solved)
  = dict_keys (KD_required
                 (chunk_after (kdcalc cos_at_1 20
                                      (add_layer (add_layer new_chunk 7 0.5 false) 0 0 true)
                                      0))).
Proof.
  apply (kdcalc_keys_depend_on_max_ap cos_series cos_at_1 10 20 half_chunk
           (add_layer (add_layer new_chunk 7 0.5 false) 0 0 true) 1 0);
    vm_compute; reflexivity.
Defined.

(* ================================================================== *)
(** * No division by zero *)

Lemma ap_value_nonzero (k : nat) :
  (k <= ap_last)%nat -> (ap_value (S k) =? 0)%float = false.
Proof.
  intros Hk. pose proof ap_table as H. rewrite forallb_forall in H.
  specialize (H k). unfold ap_step_ok in H.
  rewrite !andb_true_iff, negb_true_iff in H.
  destruct H as [_ H]; [apply in_seq; unfold ap_table_size; lia | exact H].
Qed.

Lemma ap_run_raise_at (cos : float -> float) (ls : list Layer)
      (max_ap shell_angle shell_ap : float) (ws : list (float * Z)) (e : exn) :
  ap_run cos ls max_ap shell_angle shell_ap ws (Some e) ->
  (Nat.iter (length ws) next_ap shell_ap <=? max_ap)%float = true
  /\ rounded_hp cos ls shell_angle (Nat.iter (length ws) next_ap shell_ap) = Err e.
Proof.
  intros H. remember (Some e) as fin eqn:E.
  induction H as [s G | s e' G Hv | s v ws fin G Hv Hrun IH]; [discriminate | |].
  - injection E as ->. now split.
  - simpl length. rewrite Nat.iter_succ_r. auto.
Qed.

Lemma add_and_round_zero_division (cos : float -> float) (shell_angle shell_ap : float)
      (acc : Z) (l : Layer) :
  add_and_round cos shell_angle shell_ap acc l = Err ZeroDivisionError ->
  (shell_ap =? 0)%float = true.
Proof.
  unfold add_and_round, layer_hp, py_div, math_cos, int_to_float, py_round.
  destruct (shell_ap =? 0)%float; simpl; [reflexivity|].
  destruct (is_nan (cos shell_angle) && negb (is_nan shell_angle)); simpl; [discriminate|].
  destruct (is_infinity (cos shell_angle) && is_finite shell_angle); simpl; [discriminate|].
  destruct (binary_normalize prec emax acc 0 false); simpl; try discriminate;
    destruct (Prim2SF _); discriminate.
Qed.

Lemma rounded_hp_zero_division (cos : float -> float) (ls : list Layer)
      (shell_angle shell_ap : float) :
  rounded_hp cos ls shell_angle shell_ap = Err ZeroDivisionError ->
  (shell_ap =? 0)%float = true.
Proof.
  unfold rounded_hp. generalize 0 as acc.
  induction (non_last ls) as [|l rest IH]; intros acc; simpl; [discriminate|].
  destruct (add_and_round cos shell_angle shell_ap acc l) as [a|e'] eqn:E; simpl.
  - apply IH.
  - intros [= ->]. now apply add_and_round_zero_division in E.
Qed.

(** X9.  Because [shell_ap] starts at 0.1 and only grows, the division by
    [shell_ap] never fails: when the maximum [ac] of the layers except the
    last is at most [max_ap_bound], [kdcalc] never raises
    [ZeroDivisionError]. *)
Theorem kdcalc_no_zero_division (cos : float -> float) (fuel : nat) (c : ArmorChunk)
        (shell_angle max_ap : float) (e : exn) (c' : ArmorChunk) :
  py_max (map ac (non_last (layers c))) = Ok max_ap ->
  (max_ap <=? max_ap_bound)%float = true ->
  kdcalc cos fuel c shell_angle = Raises e c' ->
  e <> ZeroDivisionError.
Proof.
  intros Hmax Hb Hr ->.
  pose proof (kdcalc_run cos fuel c shell_angle max_ap Hmax) as H.
  rewrite Hr in H. destruct H as (ws & Hrun & _ & _).
  pose proof (ap_run_bounded cos _ _ _ _ _ _ Hb Hrun 0%nat eq_refl (Nat.le_0_l _)) as Hn.
  simpl in Hn.
  apply ap_run_raise_at in Hrun as [_ Hrun]. apply rounded_hp_zero_division in Hrun.
  change (Nat.iter (length ws) next_ap 0.1%float) with (ap_iter (length ws)) in Hrun.
  rewrite ap_iter_value, ap_value_nonzero in Hrun by lia. discriminate.
Qed.

Lemma kdcalc_no_zero_division_witness : ValueError_nan_to_int <> ZeroDivisionError.
Proof.
  apply (kdcalc_no_zero_division cos_series 1 (add_layer (add_layer new_chunk 0x1p1020 1000 true) 0 0 false)
           0 1000 ValueError_nan_to_int
           (add_layer (add_layer new_chunk 0x1p1020 1000 true) 0 0 false));
    vm_compute; reflexivity.
Defined.

(* ================================================================== *)
(** * The last statements of the driver *)

(** X10.  On a chunk of fewer than two layers the driver crashes: it
    ends in the [ValueError] of [max], raised by [kdcalc], and prints
    nothing. *)
Theorem run_chunk_short_chunk (cos : float -> float) (fuel : nat) (c : ArmorChunk)
        (shell_angle : float) :
  (length (layers c) <= 1)%nat ->
  run_chunk cos fuel c shell_angle = Crashed ValueError_max_empty c.
Proof.
  intros H. unfold run_chunk. rewrite armorcalc_returns, kdcalc_unfold.
  destruct c as [[|l [|l' ls]] KD]; simpl in *; try reflexivity; lia.
Qed.

Lemma run_chunk_short_chunk_witness :
  run_chunk cos_series 5 (chunk_of [HA]) 45 = Crashed ValueError_max_empty (chunk_of [HA]).
Proof. apply (run_chunk_short_chunk cos_series 5 (chunk_of [HA]) 45). simpl. lia. Defined.

Lemma material_layers_eq : material_layers = material_layers_value.
Proof. vm_compute. reflexivity. Qed.

(** Checked by evaluation, for every layer of [material_layers] and every
    value of [shell_ap] up to 72.1. *)
Lemma material_table : forallb material_step_ok (seq 0 (S material_ap_last)) = true.
Proof. vm_compute. reflexivity. Qed.

Lemma material_layer_step (l : Layer) (k : nat) :
  In l material_layers -> (k <= material_ap_last)%nat ->
  finite (hp l * (ac l / ap_value (S k)))%float = true
  /\ (ac l <=? material_ac_bound)%float = true.
Proof.
  intros Hl Hk. pose proof material_table as H. rewrite forallb_forall in H.
  specialize (H k). unfold material_step_ok in H. cbv zeta in H.
  rewrite forallb_forall in H.
  apply andb_true_iff. apply H; [|now rewrite <- material_layers_eq].
  apply in_seq. lia.
Qed.

Lemma ltb_leb (x y : float) : (x <? y)%float = true -> (x <=? y)%float = true.
Proof.
  intros (a & b & Ha & Hb & Hab)%FloatOrderFacts.ltb_key.
  apply FloatOrderFacts.leb_key. exists a, b. repeat split; auto.
  intros Hba. exact (FloatOrderFacts.lex_lt_irrefl a (FloatOrderFacts.lex_lt_trans _ _ _ Hab Hba)).
Qed.

Lemma material_ac_bound_le : (material_ac_bound <=? max_ap_bound)%float = true.
Proof. reflexivity. Qed.

Lemma material_ap_last_le : (material_ap_last <= ap_last)%nat.
Proof. apply Nat.leb_le. vm_compute. reflexivity. Qed.

(** A value of [shell_ap] within an [ac] of the material table is one of
    the first 721. *)
Lemma material_run_bounded (max_ap : float) (j : nat) :
  (max_ap <=? material_ac_bound)%float = true ->
  (j <= ap_last)%nat ->
  (ap_value (S j) <=? max_ap)%float = true -> (j <= material_ap_last)%nat.
Proof.
  intros Hb Hj G. destruct (Nat.le_gt_cases j material_ap_last) as [H|H]; [exact H|].
  exfalso.
  assert (Hlt : (ap_value (S material_ap_last) <? ap_value (S j))%float = true)
    by (apply ap_value_lt; lia).
  pose proof (FloatOrderFacts.leb_trans _ _ _
                (FloatOrderFacts.leb_trans _ _ _ (ltb_leb _ _ Hlt) G) Hb) as Hc.
  vm_compute in Hc. discriminate.
Qed.

Lemma material_layer_in (m : material) : In (material_layer m) material_layers.
Proof.
  unfold material_layers. apply in_flat_map. exists m. split; [|now left].
  destruct m; simpl; tauto.
Qed.

Lemma boost_material_layer_in (m m' : material) :
  In (boost (material_layer m) (material_layer m')) material_layers.
Proof.
  unfold material_layers. apply in_flat_map. exists m. split.
  - destruct m; simpl; tauto.
  - right. apply in_map_iff. exists m'. split; [reflexivity|].
    destruct m'; simpl; tauto.
Qed.

Lemma effective_ac_material_layers (ms : list material) (l : Layer) :
  In l (effective_ac (map material_layer ms)) -> In l material_layers.
Proof.
  intros Hl. apply list_elem_of_In, list_elem_of_lookup in Hl as [i Hi].
  rewrite effective_ac_lookup, !list_lookup_fmap in Hi.
  destruct (ms !! i) as [m|]; [|discriminate]. simpl in Hi.
  destruct (ms !! S i) as [m'|]; simpl in Hi; injection Hi as <-.
  - apply boost_material_layer_in.
  - apply material_layer_in.
Qed.

Lemma round_zero_product_finite (x : float) :
  finite x = true -> py_round (0 + x * 0)%float = Ok 0.
Proof.
  unfold py_round, finite. rewrite add_spec, mul_spec.
  change (Prim2SF 0) with (S754_zero false).
  destruct (Prim2SF x) as [s|s| |s m e]; simpl; try discriminate;
    destruct s; reflexivity.
Qed.

Lemma rounded_hp_direct_hit (cos : float -> float) (ls : list Layer) (k : nat) :
  cos 0%float = 1%float ->
  Forall (fun l => In l material_layers) ls -> (k <= material_ap_last)%nat ->
  rounded_hp cos ls 0 (ap_value (S k)) = Ok 0.
Proof.
  intros Hcos Hls Hk. unfold rounded_hp.
  assert (Hnl : Forall (fun l => In l material_layers) (non_last ls)).
  { rewrite non_last_take. now apply Forall_take. }
  induction (non_last ls) as [|l rest IH]; simpl; [reflexivity|].
  apply Forall_cons in Hnl as [Hl Hrest].
  assert (E : add_and_round cos 0 (ap_value (S k)) 0 l = Ok 0).
  { unfold add_and_round, layer_hp, py_div, math_cos. rewrite Hcos.
    rewrite (ap_value_nonzero k) by (pose proof material_ap_last_le; lia).
    change (is_nan 1 && negb (is_nan 0)) with false.
    change (is_infinity 1 && is_finite 0) with false.
    change (int_to_float 0) with (Ok 0%float).
    change (1 - 1)%float with 0%float.
    cbn [bind]. apply round_zero_product_finite.
    now apply material_layer_step. }
  rewrite E. simpl. now apply IH.
Qed.

Lemma bounded_run_keys (cos : float -> float) (ls : list Layer)
      (max_ap shell_angle : float) (ws : list (float * Z)) (fin : option exn) :
  (max_ap <=? max_ap_bound)%float = true ->
  ap_run cos ls max_ap shell_angle 0.1%float ws fin ->
  (length ws <= ap_last)%nat /\ map fst ws = map ap_value (seq 1 (length ws)).
Proof.
  intros Hb Hrun.
  pose proof (ap_run_bounded cos _ _ _ _ _ _ Hb Hrun 0%nat eq_refl (Nat.le_0_l _)) as Hn.
  simpl in Hn. split; [exact Hn|].
  rewrite (ap_run_keys _ _ _ _ _ _ _ Hrun), <- seq_shift, map_map.
  apply map_ext_in. intros j Hj. apply in_seq in Hj.
  apply (ap_iter_value j). lia.
Qed.

Lemma dict_set_fresh (d : dict) (k : float) (v : Z) :
  Forall (fun k' => (k' =? k)%float = false) (dict_keys d) ->
  dict_set d k v = d ++ [(k, v)].
Proof.
  unfold dict_keys. induction d as [|[k' v'] d IH]; simpl; intros H; [reflexivity|].
  apply Forall_cons in H as [H1 H2]. rewrite H1. now rewrite IH.
Qed.

Lemma dict_update_fresh (ws : list (float * Z)) (d : dict) :
  StronglySorted (fun a b => (a =? b)%float = false) (dict_keys d ++ map fst ws) ->
  dict_update d ws = d ++ ws.
Proof.
  revert d. induction ws as [|[k v] ws IH]; intros d H; simpl.
  - now rewrite app_nil_r.
  - assert (Hk : Forall (fun k' => (k' =? k)%float = false) (dict_keys d)).
    { clear IH. induction (dict_keys d) as [|a l IHl]; [constructor|].
      simpl in H. apply StronglySorted_inv in H as [H1 H2]. constructor.
      - rewrite List.Forall_forall in H2. apply H2. apply in_or_app. right. now left.
      - auto. }
    change (dict_update d ((k, v) :: ws)) with (dict_update (dict_set d k v) ws).
    rewrite (dict_set_fresh d k v Hk). rewrite IH.
    + now rewrite <- app_assoc.
    + unfold dict_keys in *. rewrite map_app. simpl. now rewrite <- app_assoc.
Qed.

Lemma entries_of_keys (ws : list (float * Z)) (ks : list float) :
  map fst ws = ks -> Forall (fun kv => snd kv = 0) ws -> ws = map (fun k => (k, 0)) ks.
Proof.
  intros <-. induction ws as [|[k v] ws IH]; intros H; simpl; [reflexivity|].
  apply Forall_cons in H as [E H]. simpl in E. subst v. now rewrite <- IH.
Qed.

(** X11.  A direct hit on a chunk built from the material table: for
    every list of at least two materials, with a cosine whose value at 0
    is 1, the driver's [armorcalc()], [kdcalc(0)], [print_chunk()] run to
    the end without an exception, within [ap_last] runs of the loop; the
    layers are left at their effective armor class, and the table printed
    is [KD_required], which holds the keys 0.1, 0.2, ..., n/10, each with
    the value 0. *)
Theorem run_chunk_direct_hit (cos : float -> float) (ms : list material) (fuel : nat) :
  cos 0%float = 1%float ->
  (2 <= length ms)%nat -> (ap_last <= fuel)%nat ->
  exists (c2 : ArmorChunk) (n : nat),
    run_chunk cos fuel (chunk_of ms) 0 = Ran c2 (Printed (KD_required c2))
    /\ layers c2 = effective_ac (map material_layer ms)
    /\ KD_required c2 = map (fun k => (ap_value k, 0)) (seq 1 n).
Proof.
  intros Hcos Hlen Hfuel.
  set (ls1 := effective_ac (map material_layer ms)).
  assert (Hls1 : Forall (fun l => In l material_layers) ls1).
  { apply List.Forall_forall. apply effective_ac_material_layers. }
  assert (Hlen1 : (2 <= length ls1)%nat).
  { unfold ls1. now rewrite effective_ac_length, length_map. }
  destruct (py_max_two_layers ls1 Hlen1) as (max_ap & Hmax).
  assert (Hb72 : (max_ap <=? material_ac_bound)%float = true).
  { destruct (py_max_spec _ _ Hmax) as [Hin _].
    apply in_map_iff in Hin as (l & <- & Hl).
    assert (In l ls1) as Hl1.
    { rewrite <- (take_drop (length ls1 - 1) ls1). apply in_or_app. left.
      now rewrite <- non_last_take. }
    rewrite List.Forall_forall in Hls1.
    apply (material_layer_step l 0 (Hls1 l Hl1)). lia. }
  assert (Hb : (max_ap <=? max_ap_bound)%float = true).
  { apply FloatOrderFacts.leb_trans with material_ac_bound;
      [exact Hb72 | exact material_ac_bound_le]. }
  pose proof (chunk_of_KD ms) as HKD.
  unfold run_chunk. rewrite armorcalc_returns, chunk_of_layers. fold ls1.
  rewrite kdcalc_unfold. simpl. rewrite Hmax, HKD.
  pose proof (kdcalc_while_ends cos ls1 max_ap 0 Hb ap_last 0 fuel [] eq_refl Hfuel) as Hends.
  change (ap_iter 0) with 0.1%float in Hends.
  pose proof (kdcalc_while_run cos fuel ls1 max_ap 0 0.1%float []) as Hrun.
  destruct (kdcalc_while cos fuel ls1 max_ap 0 0.1%float []) as [KD'|e KD'|];
    [| |contradiction].
  - destruct Hrun as (ws & Hrun & _ & ->). simpl.
    destruct (bounded_run_keys cos _ _ _ _ _ Hb Hrun) as [Hn Hkeys].
    assert (Hzero : Forall (fun kv => snd kv = 0) ws).
    { pose proof (ap_run_values _ _ _ _ _ _ _ Hrun) as Hv.
      eapply Forall_impl; [exact Hv|]. intros kv [_ E].
      now apply rounded_hp_zero_angle in E. }
    assert (Hsorted : StronglySorted (fun a b => (a =? b)%float = false) (map fst ws)).
    { rewrite Hkeys. eapply StronglySorted_impl; [|apply ap_value_sorted; lia].
      intros a b. apply FloatOrderFacts.ltb_not_eqb. }
    assert (Hupd : dict_update [] ws = ws) by now apply dict_update_fresh.
    rewrite Hupd.
    exists (with_KD (with_layers (chunk_of ms) ls1) ws), (length ws).
    split; [|split; [reflexivity|]].
    + f_equal. unfold print_chunk. simpl. unfold dict_keys.
      rewrite (print_lines_entries ws ws []); [reflexivity | | apply incl_refl].
      split; [|exact Hsorted]. unfold dict_keys.
      apply Forall_map. apply (ap_run_keys_not_nan _ _ _ _ _ _ _ Hrun).
    + simpl.
      transitivity (map (fun k => (k, 0)) (map ap_value (seq 1 (length ws))));
        [now apply entries_of_keys | now rewrite map_map].
  - exfalso. destruct Hrun as (ws & Hrun & _ & _).
    destruct (bounded_run_keys cos _ _ _ _ _ Hb Hrun) as [Hn _].
    apply ap_run_raise_at in Hrun as [G Hrun].
    change (Nat.iter (length ws) next_ap 0.1%float) with (ap_iter (length ws)) in G, Hrun.
    rewrite ap_iter_value in G, Hrun by exact Hn.
    rewrite rounded_hp_direct_hit in Hrun; [discriminate | exact Hcos | exact Hls1 |].
    now apply (material_run_bounded max_ap).
Qed.

Lemma run_chunk_direct_hit_witness :
  exists (c2 : ArmorChunk) (n : nat),
    run_chunk cos_series (Z.to_nat 10000) (chunk_of [METAL; WOOD; AIR]) 0
    = Ran c2 (Printed (KD_required c2))
    /\ layers c2 = effective_ac (map material_layer [METAL; WOOD; AIR])
    /\ KD_required c2 = map (fun k => (ap_value k, 0)) (seq 1 n).
Proof.
  apply (run_chunk_direct_hit cos_series [METAL; WOOD; AIR] (Z.to_nat 10000)).
  - reflexivity.
  - simpl. lia.
  - apply Nat.le_refl.
Defined.

(* ================================================================== *)
(** * [kdcalc] reads hit points and armor classes only *)

Lemma map_hp_ac (ls1 ls2 : list Layer) :
  map hp ls1 = map hp ls2 -> map ac ls1 = map ac ls2 ->
  map (fun l => (hp l, ac l)) ls1 = map (fun l => (hp l, ac l)) ls2.
Proof.
  revert ls2. induction ls1 as [|l1 ls1 IH]; intros [|l2 ls2]; simpl;
    try discriminate; [reflexivity|].
  intros [= H1 H2] [= H3 H4]. rewrite H1, H3. f_equal. now apply IH.
Qed.

Lemma non_last_hp_ac (ls1 ls2 : list Layer) :
  map hp ls1 = map hp ls2 -> map ac ls1 = map ac ls2 ->
  map (fun l => (hp l, ac l)) (non_last ls1) = map (fun l => (hp l, ac l)) (non_last ls2).
Proof.
  intros Hhp Hac.
  assert (Hlen : length ls1 = length ls2).
  { apply (f_equal length) in Hhp. now rewrite !length_map in Hhp. }
  rewrite !non_last_take, Hlen.
  apply map_hp_ac; rewrite <- !firstn_map; [now rewrite Hhp | now rewrite Hac].
Qed.

Lemma fold_res_hp_ac (cos : float -> float) (shell_angle shell_ap : float)
      (l1 l2 : list Layer) (acc : Z) :
  map (fun l => (hp l, ac l)) l1 = map (fun l => (hp l, ac l)) l2 ->
  fold_res (add_and_round cos shell_angle shell_ap) l1 acc
  = fold_res (add_and_round cos shell_angle shell_ap) l2 acc.
Proof.
  revert l2 acc. induction l1 as [|x1 l1 IH]; intros [|x2 l2] acc; simpl;
    try discriminate; [reflexivity|].
  intros [= Hhp Hac H].
  assert (E : add_and_round cos shell_angle shell_ap acc x1
              = add_and_round cos shell_angle shell_ap acc x2).
  { unfold add_and_round, layer_hp. now rewrite Hhp, Hac. }
  rewrite E. destruct (add_and_round cos shell_angle shell_ap acc x2); simpl; auto.
Qed.

Lemma kdcalc_while_rounded_ext (cos : float -> float) (ls ls' : list Layer)
      (max_ap shell_angle : float) :
  (forall shell_ap, rounded_hp cos ls shell_angle shell_ap
                    = rounded_hp cos ls' shell_angle shell_ap) ->
  forall (fuel : nat) (shell_ap : float) (KD : dict),
    kdcalc_while cos fuel ls max_ap shell_angle shell_ap KD
    = kdcalc_while cos fuel ls' max_ap shell_angle shell_ap KD.
Proof.
  intros Hr. induction fuel as [|fuel IH]; intros shell_ap KD; simpl; [reflexivity|].
  destruct (shell_ap <=? max_ap)%float; [|reflexivity].
  pose proof (chunk_effective_hp_rounded cos ls shell_angle shell_ap) as H.
  pose proof (chunk_effective_hp_rounded cos ls' shell_angle shell_ap) as H'.
  rewrite Hr in H.
  destruct (chunk_effective_hp cos ls shell_angle shell_ap) as [v|e v|];
    destruct (chunk_effective_hp cos ls' shell_angle shell_ap) as [v'|e' v'|];
    try contradiction; try congruence.
  all: rewrite H in H'; injection H' as <-; apply IH.
Qed.

(** X12.  [kdcalc] reads the [hp] and the [ac] of the layers and nothing
    else: two chunks with the same [KD_required] whose layers have the same
    hit points and armor classes, whatever their [is_structural] flags, get
    the same outcome and the same [KD_required]. *)
Theorem kdcalc_reads_hp_and_ac_only (cos : float -> float) (fuel : nat)
        (c1 c2 : ArmorChunk) (shell_angle : float) :
  map hp (layers c1) = map hp (layers c2) ->
  map ac (layers c1) = map ac (layers c2) ->
  KD_required c1 = KD_required c2 ->
  outcome_map KD_required (kdcalc cos fuel c1 shell_angle)
  = outcome_map KD_required (kdcalc cos fuel c2 shell_angle).
Proof.
  intros Hhp Hac HKD.
  pose proof (non_last_hp_ac _ _ Hhp Hac) as Hnl.
  assert (Hacs : map ac (non_last (layers c1)) = map ac (non_last (layers c2))).
  { apply (f_equal (map snd)) in Hnl. now rewrite !map_map in Hnl. }
  rewrite !kdcalc_unfold, Hacs.
  destruct (py_max (map ac (non_last (layers c2)))) as [max_ap|e]; simpl; [|now rewrite HKD].
  rewrite HKD.
  rewrite (kdcalc_while_rounded_ext cos (layers c1) (layers c2)).
  - now destruct (kdcalc_while _ _ _ _ _ _ _).
  - intros shell_ap. unfold rounded_hp. now apply fold_res_hp_ac.
Qed.

Lemma kdcalc_reads_hp_and_ac_only_witness :
  outcome_map KD_required (kdcalc cos_series 10 half_chunk 1)
  = outcome_map KD_required
      (kdcalc cos_series 10
              (add_layer (add_layer (add_layer (add_layer new_chunk 1 0.5 false) 1 0.5 true)
                                    1 0.5 false) 0 0 true) 1).
Proof.
  apply (kdcalc_reads_hp_and_ac_only cos_series 10 half_chunk
           (add_layer (add_layer (add_layer (add_layer new_chunk 1 0.5 false) 1 0.5 true)
                                 1 0.5 false) 0 0 true) 1);
    reflexivity.
Defined.

(* ================================================================== *)
(** * The angle 0 *)





